(** * LinguistAI: live voice session and media job panels

    A shallow embedding of the event handlers of the four React components
    (LiveConversation, VeoAnimator, ImageEditor, SearchQuery), of the
    application shell and of the spectrum display, together with the
    properties their specification states about them and further properties
    read off the code.

    Conventions of the embedding.

    - A JavaScript string is the list of its UTF-16 code units.
    - A JavaScript number holding a time in seconds or a canvas coordinate
      is an exact rational; the rounding of IEEE doubles is not modelled.
    - React state and refs are the fields of one record per component; a
      handler is a computation in the monad [JS], which threads that record
      and ends normally, abruptly (an exception) or pending (an awaited
      promise that has not settled).
    - Objects owned by the browser (audio contexts, media tracks, buffer
      sources) are numbered, and every call made on them is appended to the
      [calls] log of the component.
    - Results of the remote service and of the browser are supplied by an
      environment record, one field per call site.
    - A handler invocation runs to completion before the next event is
      handled: awaits inside a handler are resolved from the environment of
      that invocation. *)

From Stdlib Require Import List String Ascii Bool Arith ZArith NArith QArith Qminmax Lia Lqa.
Import ListNotations.

Set Implicit Arguments.

(** ** JavaScript strings *)

Definition JsString := list N.

Definition js (s : string) : JsString :=
  map N_of_ascii (list_ascii_of_string s).

(** [!!s]: a string is truthy when it is not empty. *)
Definition truthy (s : JsString) : bool :=
  match s with [] => false | _ :: _ => true end.

(** [s || fallback] on an optional string: [undefined] and [''] are falsy. *)
Definition orElse (s : option JsString) (fallback : JsString) : JsString :=
  match s with
  | Some v => if truthy v then v else fallback
  | None => fallback
  end.

(** Interpolation [`${s}`] of a possibly undefined string. *)
Definition interpolate (s : option JsString) : JsString :=
  match s with Some v => v | None => js "undefined" end.

Fixpoint startsWith (p s : JsString) : bool :=
  match p, s with
  | [], _ => true
  | _ :: _, [] => false
  | a :: p', b :: s' => (a =? b)%N && startsWith p' s'
  end.

(** [s.includes(sub)] *)
Fixpoint includes (s sub : JsString) : bool :=
  startsWith sub s ||
  match s with
  | [] => false
  | _ :: s' => includes s' sub
  end.

(** White space and line terminators of ECMAScript, as code units. *)
Definition isWhiteSpace (c : N) : bool :=
  ((9 <=? c) && (c <=? 13) || (c =? 32) || (c =? 160) || (c =? 5760)
   || (8192 <=? c) && (c <=? 8202) || (c =? 8232) || (c =? 8233)
   || (c =? 8239) || (c =? 8287) || (c =? 12288) || (c =? 65279))%N.

Fixpoint trimStart (s : JsString) : JsString :=
  match s with
  | [] => []
  | c :: s' => if isWhiteSpace c then trimStart s' else s
  end.

Definition trimEnd (s : JsString) : JsString := rev (trimStart (rev s)).

(** [s.trim()] *)
Definition trim (s : JsString) : JsString := trimEnd (trimStart s).

(** ** Completions and the handler monad *)

(** A thrown value: [null]/[undefined], or a value whose [message] property
    is read by the handlers ([undefined] when it has none). *)
Inductive Thrown : Type :=
| ThrownNullish
| ThrownValue (message : option JsString).

Definition newError (message : JsString) : Thrown := ThrownValue (Some message).

(** Reading [e.message] in a catch clause; on a nullish [e] the read itself
    throws a TypeError. *)
Definition messageOf (e : Thrown) : Thrown + option JsString :=
  match e with
  | ThrownNullish => inl (newError (js "Cannot read properties of undefined"))
  | ThrownValue m => inr m
  end.

(** A synchronous call of the environment. *)
Inductive Result (A : Type) : Type :=
| Returns (a : A)
| Throws (e : Thrown).

(** An awaited promise of the environment. *)
Inductive Promise (A : Type) : Type :=
| Fulfilled (a : A)
| Rejected (e : Thrown)
| Unsettled.

Arguments Throws {A} e.
Arguments Rejected {A} e.
Arguments Unsettled {A}.

Inductive Completion (A : Type) : Type :=
| Normal (a : A)
| Abrupt (e : Thrown)
| Pending.

Arguments Abrupt {A} e.
Arguments Pending {A}.

Section JsMonad.

Variable S : Type.

Definition JS (A : Type) : Type := S -> S * Completion A.

Definition ret {A} (a : A) : JS A := fun s => (s, Normal a).

Definition bind {A B} (c : JS A) (k : A -> JS B) : JS B :=
  fun s =>
    match c s with
    | (s', Normal a) => k a s'
    | (s', Abrupt e) => (s', Abrupt e)
    | (s', Pending) => (s', Pending)
    end.

Definition throw {A} (e : Thrown) : JS A := fun s => (s, Abrupt e).

Definition gets {A} (f : S -> A) : JS A := fun s => (s, Normal (f s)).

Definition modify (f : S -> S) : JS unit := fun s => (f s, Normal tt).

Definition call {A} (r : Result A) : JS A :=
  match r with
  | Returns a => ret a
  | Throws e => throw e
  end.

Definition await {A} (p : Promise A) : JS A :=
  fun s =>
    match p with
    | Fulfilled a => (s, Normal a)
    | Rejected e => (s, Abrupt e)
    | Unsettled => (s, Pending)
    end.

(** [try { body } catch (e) { handler e }] *)
Definition tryCatch {A} (body : JS A) (handler : Thrown -> JS A) : JS A :=
  fun s =>
    match body s with
    | (s', Abrupt e) => handler e s'
    | r => r
    end.

(** [try { body } finally { fin }]; a pending body never reaches [fin]. *)
Definition tryFinally {A} (body : JS A) (fin : JS unit) : JS A :=
  fun s =>
    match body s with
    | (s', Pending) => (s', Pending)
    | (s', c) =>
        match fin s' with
        | (s'', Normal _) => (s'', c)
        | (s'', Abrupt e) => (s'', Abrupt e)
        | (s'', Pending) => (s'', Pending)
        end
    end.

Definition when (b : bool) (c : JS unit) : JS unit :=
  if b then c else ret tt.

Definition whenSome {A} (o : option A) (c : A -> JS unit) : JS unit :=
  match o with
  | Some a => c a
  | None => ret tt
  end.

(** [xs.forEach(f)]: the first exception ends the iteration. *)
Fixpoint forEach {A} (xs : list A) (f : A -> JS unit) : JS unit :=
  match xs with
  | [] => ret tt
  | x :: xs' => bind (f x) (fun _ => forEach xs' f)
  end.

End JsMonad.

Arguments ret {S A} a s /.
Arguments bind {S A B} c k s /.
Arguments throw {S A} e s /.
Arguments gets {S A} f s /.
Arguments modify {S} f s /.
Arguments call {S A} !r s /.
Arguments await {S A} p s /.
Arguments tryCatch {S A} body handler s /.
Arguments tryFinally {S A} body fin s /.
Arguments when {S} !b c s /.
Arguments whenSome {S A} !o c s /.

Declare Scope js_scope.
Delimit Scope js_scope with js.
Notation "x <- c1 ;; c2" := (bind c1 (fun x => c2))
  (at level 61, c1 at next level, right associativity) : js_scope.
Notation "c1 ;; c2" := (bind c1 (fun _ => c2))
  (at level 61, right associativity) : js_scope.
Open Scope js_scope.

(** ** LiveConversation: the live session controller *)

Module LiveConversation.

Definition INPUT_SAMPLE_RATE : Z := 16000.
Definition OUTPUT_SAMPLE_RATE : Z := 24000.

Record Transcription : Type := { user : JsString; model : JsString }.

(** Modelled from the spec: the declaration of the SDK's LiveServerMessage
    is not among the sources; section 6 lists what a message carries:
    optional input-transcript text, output-transcript text, inline audio
    payload, a turn-complete flag and an interrupted flag. *)
Record LiveServerMessage : Type := {
  outputTranscription : option JsString;
  inputTranscription : option JsString;
  turnComplete : bool;
  inlineAudio : option JsString;
  interrupted : bool
}.

(** The callback handed to [setTimeout]. *)
Inductive TimerCallback : Type :=
| ClearTranscription.

(** Calls made on browser objects. [SourceStart s d t] is [s.start(t)] on a
    source whose buffer lasts [d] seconds. *)
Inductive Call : Type :=
| TrackStop (track : nat)
| ContextClose (ctx : nat)
| SourceStart (source : nat) (bufferDuration : Q) (when : Q)
| SourceStop (source : nat).

Record World : Type := {
  (* useState *)
  isConnected : bool;
  error : option JsString;
  transcription : Transcription;
  (* useRef *)
  inputAudioContextRef : option nat;
  outputAudioContextRef : option nat;
  mediaStreamRef : option (list nat);
  sessionRef : option nat;
  sourcesRef : list nat;
  nextStartTimeRef : Q;
  (* browser *)
  timers : list (Z * TimerCallback);
  calls : list Call;
  nextObject : nat
}.

Definition initial : World := {|
  isConnected := false;
  error := None;
  transcription := {| user := []; model := [] |};
  inputAudioContextRef := None;
  outputAudioContextRef := None;
  mediaStreamRef := None;
  sessionRef := None;
  sourcesRef := [];
  nextStartTimeRef := 0;
  timers := [];
  calls := [];
  nextObject := 0
|}.

(** *** Assignments *)

Definition setIsConnected (b : bool) (w : World) : World :=
  {| isConnected := b; error := error w; transcription := transcription w;
     inputAudioContextRef := inputAudioContextRef w;
     outputAudioContextRef := outputAudioContextRef w;
     mediaStreamRef := mediaStreamRef w; sessionRef := sessionRef w;
     sourcesRef := sourcesRef w; nextStartTimeRef := nextStartTimeRef w;
     timers := timers w; calls := calls w; nextObject := nextObject w |}.

Definition setError (e : option JsString) (w : World) : World :=
  {| isConnected := isConnected w; error := e; transcription := transcription w;
     inputAudioContextRef := inputAudioContextRef w;
     outputAudioContextRef := outputAudioContextRef w;
     mediaStreamRef := mediaStreamRef w; sessionRef := sessionRef w;
     sourcesRef := sourcesRef w; nextStartTimeRef := nextStartTimeRef w;
     timers := timers w; calls := calls w; nextObject := nextObject w |}.

Definition setTranscription (f : Transcription -> Transcription) (w : World) : World :=
  {| isConnected := isConnected w; error := error w;
     transcription := f (transcription w);
     inputAudioContextRef := inputAudioContextRef w;
     outputAudioContextRef := outputAudioContextRef w;
     mediaStreamRef := mediaStreamRef w; sessionRef := sessionRef w;
     sourcesRef := sourcesRef w; nextStartTimeRef := nextStartTimeRef w;
     timers := timers w; calls := calls w; nextObject := nextObject w |}.

Definition setInputAudioContextRef (c : option nat) (w : World) : World :=
  {| isConnected := isConnected w; error := error w; transcription := transcription w;
     inputAudioContextRef := c;
     outputAudioContextRef := outputAudioContextRef w;
     mediaStreamRef := mediaStreamRef w; sessionRef := sessionRef w;
     sourcesRef := sourcesRef w; nextStartTimeRef := nextStartTimeRef w;
     timers := timers w; calls := calls w; nextObject := nextObject w |}.

Definition setOutputAudioContextRef (c : option nat) (w : World) : World :=
  {| isConnected := isConnected w; error := error w; transcription := transcription w;
     inputAudioContextRef := inputAudioContextRef w;
     outputAudioContextRef := c;
     mediaStreamRef := mediaStreamRef w; sessionRef := sessionRef w;
     sourcesRef := sourcesRef w; nextStartTimeRef := nextStartTimeRef w;
     timers := timers w; calls := calls w; nextObject := nextObject w |}.

Definition setMediaStreamRef (m : option (list nat)) (w : World) : World :=
  {| isConnected := isConnected w; error := error w; transcription := transcription w;
     inputAudioContextRef := inputAudioContextRef w;
     outputAudioContextRef := outputAudioContextRef w;
     mediaStreamRef := m; sessionRef := sessionRef w;
     sourcesRef := sourcesRef w; nextStartTimeRef := nextStartTimeRef w;
     timers := timers w; calls := calls w; nextObject := nextObject w |}.

Definition setSessionRef (s : option nat) (w : World) : World :=
  {| isConnected := isConnected w; error := error w; transcription := transcription w;
     inputAudioContextRef := inputAudioContextRef w;
     outputAudioContextRef := outputAudioContextRef w;
     mediaStreamRef := mediaStreamRef w; sessionRef := s;
     sourcesRef := sourcesRef w; nextStartTimeRef := nextStartTimeRef w;
     timers := timers w; calls := calls w; nextObject := nextObject w |}.

Definition setSourcesRef (l : list nat) (w : World) : World :=
  {| isConnected := isConnected w; error := error w; transcription := transcription w;
     inputAudioContextRef := inputAudioContextRef w;
     outputAudioContextRef := outputAudioContextRef w;
     mediaStreamRef := mediaStreamRef w; sessionRef := sessionRef w;
     sourcesRef := l; nextStartTimeRef := nextStartTimeRef w;
     timers := timers w; calls := calls w; nextObject := nextObject w |}.

Definition setNextStartTimeRef (t : Q) (w : World) : World :=
  {| isConnected := isConnected w; error := error w; transcription := transcription w;
     inputAudioContextRef := inputAudioContextRef w;
     outputAudioContextRef := outputAudioContextRef w;
     mediaStreamRef := mediaStreamRef w; sessionRef := sessionRef w;
     sourcesRef := sourcesRef w; nextStartTimeRef := t;
     timers := timers w; calls := calls w; nextObject := nextObject w |}.

Definition setTimers (l : list (Z * TimerCallback)) (w : World) : World :=
  {| isConnected := isConnected w; error := error w; transcription := transcription w;
     inputAudioContextRef := inputAudioContextRef w;
     outputAudioContextRef := outputAudioContextRef w;
     mediaStreamRef := mediaStreamRef w; sessionRef := sessionRef w;
     sourcesRef := sourcesRef w; nextStartTimeRef := nextStartTimeRef w;
     timers := l; calls := calls w; nextObject := nextObject w |}.

Definition record (c : Call) (w : World) : World :=
  {| isConnected := isConnected w; error := error w; transcription := transcription w;
     inputAudioContextRef := inputAudioContextRef w;
     outputAudioContextRef := outputAudioContextRef w;
     mediaStreamRef := mediaStreamRef w; sessionRef := sessionRef w;
     sourcesRef := sourcesRef w; nextStartTimeRef := nextStartTimeRef w;
     timers := timers w; calls := calls w ++ [c]; nextObject := nextObject w |}.

Definition allocate (n : nat) (w : World) : World :=
  {| isConnected := isConnected w; error := error w; transcription := transcription w;
     inputAudioContextRef := inputAudioContextRef w;
     outputAudioContextRef := outputAudioContextRef w;
     mediaStreamRef := mediaStreamRef w; sessionRef := sessionRef w;
     sourcesRef := sourcesRef w; nextStartTimeRef := nextStartTimeRef w;
     timers := timers w; calls := calls w; nextObject := n + nextObject w |}.

(** *** Browser objects *)

(** A fresh object identity. *)
Definition fresh : JS World nat :=
  fun w => (allocate 1 w, Normal (nextObject w)).

(** [source.start()] has been called on [s]. *)
Definition started (s : nat) (log : list Call) : bool :=
  existsb (fun c => match c with
                    | SourceStart s' _ _ => Nat.eqb s s'
                    | _ => false
                    end) log.

Definition stopped (s : nat) (log : list Call) : bool :=
  existsb (fun c => match c with
                    | SourceStop s' => Nat.eqb s s'
                    | _ => false
                    end) log.

Definition InvalidStateError : Thrown :=
  newError (js "cannot call stop without calling start first").

(** [s.stop()]: throws InvalidStateError on a source never started. *)
Definition stop (s : nat) : JS World unit :=
  fun w =>
    if started s (calls w)
    then (record (SourceStop s) w, Normal tt)
    else (w, Abrupt InvalidStateError).

(** [track.stop()] *)
Definition trackStop (t : nat) : JS World unit := modify (record (TrackStop t)).

(** [ctx.close()]: returns a promise, which the component drops. *)
Definition close (c : nat) : JS World unit := modify (record (ContextClose c)).

(** [Set.prototype.add] and [delete] on the insertion-ordered set. *)
Definition setAdd (s : nat) (l : list nat) : list nat :=
  if existsb (Nat.eqb s) l then l else l ++ [s].

Definition setDelete (s : nat) (l : list nat) : list nat :=
  filter (fun s' => negb (Nat.eqb s s')) l.

(** [setTimeout(cb, delay)] called when the page clock shows [now] ms. *)
Definition setTimeout (cb : TimerCallback) (delay now : Z) : JS World unit :=
  modify (fun w => setTimers (timers w ++ [((now + delay)%Z, cb)]) w).

Definition runCallback (cb : TimerCallback) (w : World) : World :=
  match cb with
  | ClearTranscription => setTranscription (fun _ => {| user := []; model := [] |}) w
  end.

(** *** cleanup *)

Definition cleanup : JS World unit :=
  mediaStream <- gets mediaStreamRef ;;
  whenSome mediaStream (fun tracks =>
    forEach tracks trackStop ;;
    modify (setMediaStreamRef None)) ;;
  inputCtx <- gets inputAudioContextRef ;;
  whenSome inputCtx (fun ctx =>
    close ctx ;;
    modify (setInputAudioContextRef None)) ;;
  outputCtx <- gets outputAudioContextRef ;;
  whenSome outputCtx (fun ctx =>
    (* Stop all current playing sources *)
    sources <- gets sourcesRef ;;
    forEach sources (fun s => tryCatch (stop s) (fun _ => ret tt)) ;;
    modify (setSourcesRef []) ;;
    close ctx ;;
    modify (setOutputAudioContextRef None)) ;;
  modify (setSessionRef None) ;;
  modify (setIsConnected false) ;;
  modify (setNextStartTimeRef 0).

(** *** startSession *)

Record StartEnv : Type := {
  newGoogleGenAI : Result unit;
  newInputAudioContext : Result unit;
  newOutputAudioContext : Result unit;
  (** [getUserMedia({ audio: true })]: the number of tracks of the stream *)
  getUserMedia : Promise nat
}.

Definition startSession (env : StartEnv) : JS World unit :=
  modify (setError None) ;;
  tryCatch
    (call (newGoogleGenAI env) ;;
     (* Initialize Audio Contexts *)
     call (newInputAudioContext env) ;;
     inputCtx <- fresh ;;
     modify (setInputAudioContextRef (Some inputCtx)) ;;
     call (newOutputAudioContext env) ;;
     outputCtx <- fresh ;;
     modify (setOutputAudioContextRef (Some outputCtx)) ;;
     (* Get Mic Stream *)
     n <- await (getUserMedia env) ;;
     first <- gets nextObject ;;
     modify (allocate n) ;;
     modify (setMediaStreamRef (Some (seq first n))) ;;
     sessionPromise <- fresh ;;
     modify (setSessionRef (Some sessionPromise)))
    (fun e =>
       match messageOf e with
       | inl typeError => throw typeError
       | inr message =>
           modify (setError (Some (orElse message (js "Failed to start session")))) ;;
           cleanup
       end).

(** *** Session callbacks *)

Definition onopen : JS World unit :=
  modify (setIsConnected true).

Record MessageEnv : Type := {
  (** [ctx.currentTime] as the handler reads it *)
  currentTime : Q;
  (** the page clock, in ms, when the handler runs *)
  timeMs : Z;
  (** [await decodeAudioData(decode(base64Audio), ctx, OUTPUT_SAMPLE_RATE, 1)]:
      the duration of the decoded buffer, or the exception *)
  decodeAudioData : Result Q
}.

(** The four blocks of [onmessage], in the order of the source. *)

(* Handle Transcription *)
Definition handleTranscription (message : LiveServerMessage) : JS World unit :=
  whenSome (outputTranscription message) (fun text =>
    modify (setTranscription (fun prev =>
      {| user := user prev; model := model prev ++ text |}))) ;;
  whenSome (inputTranscription message) (fun text =>
    modify (setTranscription (fun prev =>
      {| user := user prev ++ text; model := model prev |}))).

Definition handleTurnComplete (env : MessageEnv) (message : LiveServerMessage)
  : JS World unit :=
  when (turnComplete message)
    (setTimeout ClearTranscription 3000 (timeMs env)).

(* Handle Audio Output *)
Definition handleAudioOutput (env : MessageEnv) (message : LiveServerMessage)
  : JS World unit :=
  outputCtx <- gets outputAudioContextRef ;;
  match inlineAudio message, outputCtx with
  | Some base64Audio, Some ctx =>
      when (truthy base64Audio)
        (modify (fun w =>
           setNextStartTimeRef (Qmax (nextStartTimeRef w) (currentTime env)) w) ;;
         tryCatch
           (audioBuffer <- call (decodeAudioData env) ;;
            source <- fresh ;;
            t <- gets nextStartTimeRef ;;
            modify (record (SourceStart source audioBuffer t)) ;;
            modify (fun w => setNextStartTimeRef (nextStartTimeRef w + audioBuffer) w) ;;
            modify (fun w => setSourcesRef (setAdd source (sourcesRef w)) w))
           (fun _ => ret tt))
  | _, _ => ret tt
  end.

(* Handle Interruption *)
Definition handleInterruption (message : LiveServerMessage) : JS World unit :=
  when (interrupted message)
    (sources <- gets sourcesRef ;;
     forEach sources stop ;;
     modify (setSourcesRef []) ;;
     modify (setNextStartTimeRef 0) ;;
     modify (setTranscription (fun prev => {| user := user prev; model := [] |}))).

Definition onmessage (env : MessageEnv) (message : LiveServerMessage) : JS World unit :=
  handleTranscription message ;;
  handleTurnComplete env message ;;
  handleAudioOutput env message ;;
  handleInterruption message.

Definition onclose : JS World unit :=
  modify (setIsConnected false).

Definition onerror (err : Thrown) : JS World unit :=
  modify (setError (Some (js "Connection error occurred."))) ;;
  modify (setIsConnected false).

(** The ['ended'] listener of a buffer source. *)
Definition onended (source : nat) : JS World unit :=
  modify (fun w => setSourcesRef (setDelete source (sourcesRef w)) w).

(** The timers due at page time [now] fire, oldest first. *)
Definition runTimers (now : Z) (w : World) : World :=
  let due := filter (fun t => (fst t <=? now)%Z) (timers w) in
  let later := filter (fun t => negb (fst t <=? now)%Z) (timers w) in
  fold_left (fun w' t => runCallback (snd t) w') due (setTimers later w).

(** *** Events of the component *)

Inductive Event : Type :=
| StartSession (env : StartEnv)
| OnOpen
| OnMessage (env : MessageEnv) (message : LiveServerMessage)
| OnClose
| OnError (err : Thrown)
| Cleanup
| OnEnded (source : nat)
| RunTimers (now : Z).

Definition handle (ev : Event) (w : World) : World :=
  match ev with
  | StartSession env => fst (startSession env w)
  | OnOpen => fst (onopen w)
  | OnMessage env message => fst (onmessage env message w)
  | OnClose => fst (onclose w)
  | OnError err => fst (onerror err w)
  | Cleanup => fst (cleanup w)
  | OnEnded source => fst (onended source w)
  | RunTimers now => runTimers now w
  end.

Definition run (evs : list Event) (w : World) : World :=
  fold_left (fun w' ev => handle ev w') evs w.

Definition reachable (w : World) : Prop :=
  exists evs, w = run evs initial.

(** *** The playback schedule *)

Record Slot : Type := { slotStart : Q; slotDuration : Q; slotClock : Q }.

(** The buffers started by the calls [log], tagged with the clock reading
    of the handler invocation that made them. *)
Fixpoint slots (clock : Q) (log : list Call) : list Slot :=
  match log with
  | [] => []
  | SourceStart _ d t :: log' =>
      {| slotStart := t; slotDuration := d; slotClock := clock |} :: slots clock log'
  | _ :: log' => slots clock log'
  end.

Fixpoint schedule (msgs : list (MessageEnv * LiveServerMessage)) (w : World) : list Slot :=
  match msgs with
  | [] => []
  | (env, message) :: rest =>
      let w' := fst (onmessage env message w) in
      slots (currentTime env) (skipn (List.length (calls w)) (calls w')) ++ schedule rest w'
  end.

(** Each buffer starts no earlier than the end of the one before it. *)
Fixpoint chained (l : list Slot) : Prop :=
  match l with
  | a :: (b :: _) as l' => (slotStart a + slotDuration a <= slotStart b)%Q /\ chained l'
  | _ => True
  end.

(** *** Summaries used by the proofs *)

(** [w] with the calls [cs] appended to its log. *)
Definition appendCalls (cs : list Call) (w : World) : World :=
  {| isConnected := isConnected w; error := error w; transcription := transcription w;
     inputAudioContextRef := inputAudioContextRef w;
     outputAudioContextRef := outputAudioContextRef w;
     mediaStreamRef := mediaStreamRef w; sessionRef := sessionRef w;
     sourcesRef := sourcesRef w; nextStartTimeRef := nextStartTimeRef w;
     timers := timers w; calls := calls w ++ cs; nextObject := nextObject w |}.

Definition isStart (c : Call) : bool :=
  match c with SourceStart _ _ _ => true | _ => false end.

(** The calls [cleanup] makes from [w], and the state it leaves. *)
Definition cleanupCalls (w : World) : list Call :=
  match mediaStreamRef w with
  | Some tracks => map TrackStop tracks
  | None => []
  end ++
  match inputAudioContextRef w with
  | Some ctx => [ContextClose ctx]
  | None => []
  end ++
  match outputAudioContextRef w with
  | Some ctx =>
      map SourceStop (filter (fun s => started s (calls w)) (sourcesRef w))
      ++ [ContextClose ctx]
  | None => []
  end.

Definition cleaned (w : World) : World :=
  {| isConnected := false; error := error w; transcription := transcription w;
     inputAudioContextRef := None; outputAudioContextRef := None;
     mediaStreamRef := None; sessionRef := None;
     sourcesRef := match outputAudioContextRef w with
                   | Some _ => []
                   | None => sourcesRef w
                   end;
     nextStartTimeRef := 0;
     timers := timers w; calls := calls w ++ cleanupCalls w;
     nextObject := nextObject w |}.

(** The invariant of the playback set: every tracked source has been started,
    and no source is tracked without a playback context. *)
Definition Inv (w : World) : Prop :=
  (forall s, In s (sourcesRef w) -> started s (calls w) = true)
  /\ (outputAudioContextRef w = None -> sourcesRef w = []).

(** The audio block runs when the message carries a non-empty payload and a
    playback context is present; [scheduled now d w] is the state after it
    has started a buffer of duration [d] with the clock at [now]. *)
Definition playable (message : LiveServerMessage) (w : World) : bool :=
  match inlineAudio message, outputAudioContextRef w with
  | Some base64Audio, Some _ => truthy base64Audio
  | _, _ => false
  end.

Definition scheduled (now d : Q) (w : World) : World :=
  let t := Qmax (nextStartTimeRef w) now in
  {| isConnected := isConnected w; error := error w; transcription := transcription w;
     inputAudioContextRef := inputAudioContextRef w;
     outputAudioContextRef := outputAudioContextRef w;
     mediaStreamRef := mediaStreamRef w; sessionRef := sessionRef w;
     sourcesRef := setAdd (nextObject w) (sourcesRef w);
     nextStartTimeRef := t + d;
     timers := timers w;
     calls := calls w ++ [SourceStart (nextObject w) d t];
     nextObject := S (nextObject w) |}.

(** The state in which the interruption block of [onmessage] runs. *)
Definition beforeInterruption (env : MessageEnv) (message : LiveServerMessage)
  (w : World) : World :=
  fst (handleAudioOutput env message
        (fst (handleTurnComplete env message
               (fst (handleTranscription message w))))).

(** The state after an interruption that stopped every tracked source. *)
Definition flushed (w : World) : World :=
  {| isConnected := isConnected w; error := error w;
     transcription := {| user := user (transcription w); model := [] |};
     inputAudioContextRef := inputAudioContextRef w;
     outputAudioContextRef := outputAudioContextRef w;
     mediaStreamRef := mediaStreamRef w; sessionRef := sessionRef w;
     sourcesRef := []; nextStartTimeRef := 0;
     timers := timers w;
     calls := calls w ++ map SourceStop (sourcesRef w);
     nextObject := nextObject w |}.

(** The buffer that a message gets scheduled, if any: its duration. *)
Definition audible (env : MessageEnv) (message : LiveServerMessage) (w : World)
  : option Q :=
  if playable message w then
    match decodeAudioData env with
    | Returns d => Some d
    | Throws _ => None
    end
  else None.

(** The durations of the payloads of a message that decode. *)
Definition decoded (em : MessageEnv * LiveServerMessage) : list Q :=
  match inlineAudio (snd em), decodeAudioData (fst em) with
  | Some base64Audio, Returns d => if truthy base64Audio then [d] else []
  | _, _ => []
  end.

(** [chained], with the first buffer starting at [c] or later. *)
Fixpoint chainedFrom (c : Q) (l : list Slot) : Prop :=
  match l with
  | [] => True
  | a :: l' => (c <= slotStart a)%Q /\ chainedFrom (slotStart a + slotDuration a) l'
  end.

(** The same message without the turn-complete flag. *)
Definition withoutTurnComplete (message : LiveServerMessage) : LiveServerMessage :=
  {| outputTranscription := outputTranscription message;
     inputTranscription := inputTranscription message;
     turnComplete := false;
     inlineAudio := inlineAudio message;
     interrupted := interrupted message |}.

(** Both transcript strings empty. *)
Definition cleared : Transcription := {| user := []; model := [] |}.

(** *** Sample sessions *)

(** The browser grants everything: both contexts, a microphone with one
    track. *)
Definition granted : StartEnv := {|
  newGoogleGenAI := Returns tt;
  newInputAudioContext := Returns tt;
  newOutputAudioContext := Returns tt;
  getUserMedia := Fulfilled 1%nat
|}.

(** A message carrying an audio payload and nothing else but, possibly, the
    interrupted flag. *)
Definition audioMessage (flag : bool) : LiveServerMessage := {|
  outputTranscription := None;
  inputTranscription := None;
  turnComplete := false;
  inlineAudio := Some (js "AAAA");
  interrupted := flag
|}.

Definition turnCompleteMessage : LiveServerMessage := {|
  outputTranscription := Some (js "Bonjour");
  inputTranscription := None;
  turnComplete := true;
  inlineAudio := None;
  interrupted := false
|}.

(** The handler reads the playback clock [now]; the payload decodes to a
    buffer of [d] seconds. *)
Definition reading (now d : Q) : MessageEnv := {|
  currentTime := now; timeMs := 0; decodeAudioData := Returns d
|}.

(** An open session, and the same with one buffer of ten seconds playing. *)
Definition sessionOpen : World :=
  Eval vm_compute in run [StartSession granted; OnOpen] initial.

Definition sessionPlaying : World :=
  Eval vm_compute in
    run [StartSession granted; OnOpen; OnMessage (reading 0 10) (audioMessage false)]
        initial.

(** Two payloads, of ten seconds and of one second, read at clock 0 and 1;
    [flag] is the interrupted flag of the first. *)
Definition twoPayloads (flag : bool) : list (MessageEnv * LiveServerMessage) :=
  [(reading 0 10, audioMessage flag); (reading 1 1, audioMessage false)].

(** *** Further summaries *)

(** The message handler applied to a sequence of messages. *)
Definition handleAll (msgs : list (MessageEnv * LiveServerMessage)) (w : World)
  : World :=
  fold_left (fun w' em => fst (onmessage (fst em) (snd em) w')) msgs w.

Definition outputText (message : LiveServerMessage) : JsString :=
  match outputTranscription message with Some text => text | None => [] end.

Definition inputText (message : LiveServerMessage) : JsString :=
  match inputTranscription message with Some text => text | None => [] end.

Definition total (l : list Q) : Q := fold_right Qplus 0 l.

(** Every object the component holds was created before [nextObject]. *)
Definition Fresh (w : World) : Prop :=
  (forall s, In s (sourcesRef w) -> (s < nextObject w)%nat)
  /\ (forall c, inputAudioContextRef w = Some c -> (c < nextObject w)%nat)
  /\ (forall c, outputAudioContextRef w = Some c -> (c < nextObject w)%nat)
  /\ (forall ts t, mediaStreamRef w = Some ts -> In t ts -> (t < nextObject w)%nat).

(** [startSession] fails with [e]: one of the constructors throws it or the
    microphone request is rejected with it. *)
Definition failsWith (env : StartEnv) (e : Thrown) : Prop :=
  newGoogleGenAI env = Throws e
  \/ (newGoogleGenAI env = Returns tt /\ newInputAudioContext env = Throws e)
  \/ (newGoogleGenAI env = Returns tt /\ newInputAudioContext env = Returns tt
      /\ newOutputAudioContext env = Throws e)
  \/ (newGoogleGenAI env = Returns tt /\ newInputAudioContext env = Returns tt
      /\ newOutputAudioContext env = Returns tt /\ getUserMedia env = Rejected e).

(** The microphone is refused. *)
Definition denied : StartEnv := {|
  newGoogleGenAI := Returns tt;
  newInputAudioContext := Returns tt;
  newOutputAudioContext := Returns tt;
  getUserMedia := Rejected (newError (js "Permission denied"))
|}.

(** A payload that fails to decode. *)
Definition garbled (now : Q) : MessageEnv := {|
  currentTime := now; timeMs := 0;
  decodeAudioData := Throws (newError (js "bad PCM"))
|}.

Definition textMessage (text : JsString) (at_end : bool) : LiveServerMessage := {|
  outputTranscription := Some text;
  inputTranscription := None;
  turnComplete := at_end;
  inlineAudio := None;
  interrupted := false
|}.

(** The page clock shows [ms]. *)
Definition pageTime (ms : Z) : MessageEnv := {|
  currentTime := 0; timeMs := ms; decodeAudioData := Returns 0
|}.

(** The bookkeeping invariant: no source is tracked twice and every held
    object is older than [nextObject]. *)
Definition Tidy (w : World) : Prop := NoDup (sourcesRef w) /\ Fresh w.

End LiveConversation.

(** ** VeoAnimator: the video panel *)

Module VeoAnimator.

Record File : Type := { name : JsString; type : JsString }.

(** Modelled from the spec: the SDK's declaration of the video operation is
    not among the sources; section 6 describes an operation handle with a
    completion flag, an optional error payload carrying a message, and, on
    completion, a fetchable video URI. *)
Record Operation : Type := {
  done : bool;
  operationError : option (option JsString);
  uri : option JsString
}.

Inductive Call : Type :=
| HasSelectedApiKey
| OpenSelectKey
| BlobToBase64 (f : File)
| GenerateVideos (prompt imageBytes mimeType : JsString)
| Sleep (ms : Z)
| GetVideosOperation (operation : Operation)
| Fetch (url : JsString)
| CreateObjectURL (blob : nat).

Record World : Type := {
  file : option File;
  prompt : JsString;
  videoUrl : option JsString;
  isLoading : bool;
  status : JsString;
  error : option JsString;
  calls : list Call
}.

Definition initial : World := {|
  file := None; prompt := []; videoUrl := None; isLoading := false;
  status := []; error := None; calls := []
|}.

Definition setFile (f : option File) (w : World) : World :=
  {| file := f; prompt := prompt w; videoUrl := videoUrl w;
     isLoading := isLoading w; status := status w; error := error w;
     calls := calls w |}.

Definition setPrompt (p : JsString) (w : World) : World :=
  {| file := file w; prompt := p; videoUrl := videoUrl w;
     isLoading := isLoading w; status := status w; error := error w;
     calls := calls w |}.

Definition setVideoUrl (u : option JsString) (w : World) : World :=
  {| file := file w; prompt := prompt w; videoUrl := u;
     isLoading := isLoading w; status := status w; error := error w;
     calls := calls w |}.

Definition setIsLoading (b : bool) (w : World) : World :=
  {| file := file w; prompt := prompt w; videoUrl := videoUrl w;
     isLoading := b; status := status w; error := error w;
     calls := calls w |}.

Definition setStatus (s : JsString) (w : World) : World :=
  {| file := file w; prompt := prompt w; videoUrl := videoUrl w;
     isLoading := isLoading w; status := s; error := error w;
     calls := calls w |}.

Definition setError (e : option JsString) (w : World) : World :=
  {| file := file w; prompt := prompt w; videoUrl := videoUrl w;
     isLoading := isLoading w; status := status w; error := e;
     calls := calls w |}.

Definition record (c : Call) : JS World unit :=
  modify (fun w =>
    {| file := file w; prompt := prompt w; videoUrl := videoUrl w;
       isLoading := isLoading w; status := status w; error := error w;
       calls := calls w ++ [c] |}).

Record Env : Type := {
  (** [process.env.API_KEY] *)
  API_KEY : option JsString;
  hasSelectedApiKey : Promise bool;
  openSelectKey : Promise unit;
  newGoogleGenAI : Result unit;
  blobToBase64 : Promise JsString;
  generateVideos : Promise Operation;
  (** the successive answers of [getVideosOperation] *)
  getVideosOperation : list (Promise Operation);
  fetch : JsString -> Promise nat;
  blob : nat -> Promise nat;
  createObjectURL : nat -> JsString
}.

(** [handleFileChange]: [files] is [e.target.files]. *)
Definition handleFileChange (files : option (list File)) : JS World unit :=
  match files with
  | Some (f :: _) => modify (setFile (Some f))
  | _ => ret tt
  end.

(** The polling loop; [reports] are the answers still to come, and a fetch
    beyond them never settles. *)
Fixpoint poll (reports : list (Promise Operation)) (operation : Operation)
  : JS World Operation :=
  if done operation then ret operation
  else
    record (Sleep 5000) ;;      (* Poll every 5s *)
    record (GetVideosOperation operation) ;;
    match reports with
    | [] => await Unsettled
    | report :: reports' =>
        operation' <- await report ;;
        poll reports' operation'
    end.

Definition handleGenerate (env : Env) : JS World unit :=
  file <- gets file ;;
  prompt <- gets prompt ;;
  match file with
  | None => ret tt
  | Some file =>
      modify (setError None) ;;
      modify (setIsLoading true) ;;
      modify (setStatus (js "Checking API Key permissions...")) ;;
      tryFinally
        (tryCatch
           ((* 1. Check/Request API Key *)
            record HasSelectedApiKey ;;
            hasKey <- await (hasSelectedApiKey env) ;;
            when (negb hasKey)
              (modify (setStatus (js "Waiting for API Key selection...")) ;;
               record OpenSelectKey ;;
               await (openSelectKey env)) ;;
            call (newGoogleGenAI env) ;;
            modify (setStatus (js "Uploading and processing image...")) ;;
            record (BlobToBase64 file) ;;
            base64Data <- await (blobToBase64 env) ;;
            modify (setStatus (js "Initializing generation (this may take a minute)...")) ;;
            record (GenerateVideos (orElse (Some prompt) (js "Animate this naturally"))
                                   base64Data (type file)) ;;
            operation <- await (generateVideos env) ;;
            modify (setStatus (js "Generating video frames...")) ;;
            operation <- poll (getVideosOperation env) operation ;;
            match operationError operation with
            | Some message =>
                throw (newError (orElse message (js "Unknown generation error")))
            | None =>
                let downloadLink := orElse (uri operation) [] in
                if truthy downloadLink then
                  modify (setStatus (js "Fetching final video...")) ;;
                  let url := downloadLink ++ js "&key=" ++ interpolate (API_KEY env) in
                  record (Fetch url) ;;
                  videoResponse <- await (fetch env url) ;;
                  videoBlob <- await (blob env videoResponse) ;;
                  record (CreateObjectURL videoBlob) ;;
                  modify (setVideoUrl (Some (createObjectURL env videoBlob)))
                else throw (newError (js "No video URI returned."))
            end)
           (fun e =>
              match messageOf e with
              | inl typeError => throw typeError
              | inr message =>
                  if truthy (orElse message [])
                     && includes (orElse message []) (js "Requested entity was not found")
                  then modify (setError (Some (js
                    "Session expired or key invalid. Please try again to select a key.")))
                  else modify (setError (Some (orElse message (js
                    "An error occurred during video generation."))))
              end))
        (modify (setIsLoading false) ;;
         modify (setStatus []))
  end.

(** *** The trace of a generation *)

Definition appendCalls (cs : list Call) (w : World) : World :=
  {| file := file w; prompt := prompt w; videoUrl := videoUrl w;
     isLoading := isLoading w; status := status w; error := error w;
     calls := calls w ++ cs |}.

Definition isStatusFetch (c : Call) : bool :=
  match c with
  | GetVideosOperation _ => true
  | _ => false
  end.

(** The number of status fetches among the calls [l]. *)
Definition statusFetches (l : list Call) : nat :=
  List.length (filter isStatusFetch l).

(** The calls of the polling loop when it is answered once for each of the
    operations [ops] it holds in turn: a five second wait, then the fetch. *)
Definition pollCalls (ops : list Operation) : list Call :=
  flat_map (fun op => [Sleep 5000; GetVideosOperation op]) ops.

(** The API key is selected, at once or after the selection dialog. *)
Definition keyReady (env : Env) : Prop :=
  hasSelectedApiKey env = Fulfilled true
  \/ (hasSelectedApiKey env = Fulfilled false /\ openSelectKey env = Fulfilled tt).

(** The calls up to and including the submission of the job. *)
Definition submissionCalls (env : Env) (f : File) (prompt base64Data : JsString)
  : list Call :=
  HasSelectedApiKey ::
  match hasSelectedApiKey env with
  | Fulfilled false => [OpenSelectKey]
  | _ => []
  end ++
  [BlobToBase64 f;
   GenerateVideos (orElse (Some prompt) (js "Animate this naturally"))
                  base64Data (type f)].

(** The polling loop, started on [operation], ends with [finished]: the
    submitted operation is already done, or some fetches are answered with
    operations that are not done and the next with [finished]. *)
Definition reaches (env : Env) (operation finished : Operation) : Prop :=
  (done operation = true /\ finished = operation)
  \/ exists pendings rest,
       getVideosOperation env =
         map (@Fulfilled _) pendings ++ Fulfilled finished :: rest
       /\ Forall (fun op => done op = false) (operation :: pendings)
       /\ done finished = true.

(** What the panel shows for the [message] of a remote error payload. *)
Definition surfaced (message : option JsString) : JsString :=
  let thrown := orElse message (js "Unknown generation error") in
  if includes thrown (js "Requested entity was not found")
  then js "Session expired or key invalid. Please try again to select a key."
  else thrown.

(** The user's actions on the panel. *)
Inductive Event : Type :=
| FileChange (files : option (list File))
| PromptChange (value : JsString)
| Generate (env : Env).

Definition handle (ev : Event) (w : World) : World :=
  match ev with
  | FileChange files => fst (handleFileChange files w)
  | PromptChange value => setPrompt value w
  | Generate env => fst (handleGenerate env w)
  end.

Definition run (evs : list Event) (w : World) : World :=
  fold_left (fun w' ev => handle ev w') evs w.

Definition reachable (w : World) : Prop :=
  exists evs, w = run evs initial.

(** While no file is selected the panel is idle. *)
Definition Idle (w : World) : Prop :=
  file w = None -> isLoading w = false /\ status w = [].

(** No step of [handleGenerate] assigns the selected file. *)
Definition keepsFile {A} (c : JS World A) : Prop :=
  forall s, file (fst (c s)) = file s.

(** *** Sample runs *)

Definition picture : File := {| name := js "cat.png"; type := js "image/png" |}.

Definition ready : World :=
  Eval vm_compute in fst (handleFileChange (Some [picture]) initial).

Definition pendingOperation : Operation :=
  {| done := false; operationError := None; uri := None |}.

Definition finishedOperation : Operation :=
  {| done := true; operationError := None; uri := Some (js "https://video.example/v1?alt=media") |}.

Definition failedOperation (message : JsString) : Operation :=
  {| done := true; operationError := Some (Some message); uri := None |}.

(** A service that answers the status fetches with [reports]. *)
Definition service (reports : list (Promise Operation)) : Env := {|
  API_KEY := Some (js "k");
  hasSelectedApiKey := Fulfilled true;
  openSelectKey := Fulfilled tt;
  newGoogleGenAI := Returns tt;
  blobToBase64 := Fulfilled (js "iVBORw0KGgo=");
  generateVideos := Fulfilled pendingOperation;
  getVideosOperation := reports;
  fetch := fun _ => Fulfilled 1%nat;
  blob := fun _ => Fulfilled 2%nat;
  createObjectURL := fun _ => js "blob:local"
|}.

(** *** Further summaries *)

(** The steps up to the submission succeed: the key is ready, the image is
    read as [base64Data] and the service returns [operation]. *)
Definition submits (env : Env) (base64Data : JsString) (operation : Operation)
  : Prop :=
  keyReady env
  /\ newGoogleGenAI env = Returns tt
  /\ blobToBase64 env = Fulfilled base64Data
  /\ generateVideos env = Fulfilled operation.

(** What the catch clause shows for a thrown value with [message]. *)
Definition shown (message : option JsString) : JsString :=
  if truthy (orElse message [])
     && includes (orElse message []) (js "Requested entity was not found")
  then js "Session expired or key invalid. Please try again to select a key."
  else orElse message (js "An error occurred during video generation.").

(** A step before the submission fails with [e]. *)
Definition failsEarly (env : Env) (e : Thrown) : Prop :=
  hasSelectedApiKey env = Rejected e
  \/ (hasSelectedApiKey env = Fulfilled false /\ openSelectKey env = Rejected e)
  \/ (keyReady env /\ newGoogleGenAI env = Throws e)
  \/ (keyReady env /\ newGoogleGenAI env = Returns tt
      /\ blobToBase64 env = Rejected e).

(** Calls that reach the video service or download from it. *)
Definition isRemote (c : Call) : bool :=
  match c with
  | GenerateVideos _ _ _ | GetVideosOperation _ | Fetch _ => true
  | _ => false
  end.

Definition isFetch (c : Call) : bool :=
  match c with Fetch _ => true | _ => false end.

(** The user dismisses the key dialog. *)
Definition dismissed : Env := {|
  API_KEY := None;
  hasSelectedApiKey := Fulfilled false;
  openSelectKey := Rejected (newError (js "User cancelled"));
  newGoogleGenAI := Returns tt;
  blobToBase64 := Fulfilled (js "iVBORw0KGgo=");
  generateVideos := Fulfilled pendingOperation;
  getVideosOperation := [];
  fetch := fun _ => Fulfilled 1%nat;
  blob := fun _ => Fulfilled 2%nat;
  createObjectURL := fun _ => js "blob:local"
|}.

Definition emptyOperation : Operation :=
  {| done := true; operationError := None; uri := None |}.

(** The key check fails. *)
Definition keyless : Env := {|
  API_KEY := None;
  hasSelectedApiKey := Rejected (newError (js "No key"));
  openSelectKey := Fulfilled tt;
  newGoogleGenAI := Returns tt;
  blobToBase64 := Fulfilled (js "iVBORw0KGgo=");
  generateVideos := Fulfilled pendingOperation;
  getVideosOperation := [];
  fetch := fun _ => Fulfilled 1%nat;
  blob := fun _ => Fulfilled 2%nat;
  createObjectURL := fun _ => js "blob:local"
|}.

End VeoAnimator.

(** ** ImageEditor: the image panel *)

Module ImageEditor.

Record File : Type := { name : JsString; type : JsString }.

Record InlineData : Type := { data : option JsString }.

(** Modelled from the spec: the SDK's response types are not among the
    sources; section 6 describes a response carrying either generated text
    or an inline image payload. [parts] stands for
    [response.candidates?.[0]?.content?.parts]. *)
Record Part : Type := { inlineData : option InlineData; text : option JsString }.

Record Response : Type := { parts : option (list Part) }.

Inductive Call : Type :=
| BlobToBase64 (f : File)
| GenerateContent (imageData mimeType prompt : JsString)
| ConsoleWarn (message : JsString)
| ConsoleError
| Alert (message : JsString).

Record World : Type := {
  file : option File;
  prompt : JsString;
  resultImage : option JsString;
  loading : bool;
  calls : list Call
}.

Definition initial : World := {|
  file := None; prompt := []; resultImage := None; loading := false; calls := []
|}.

Definition setFile (f : option File) (w : World) : World :=
  {| file := f; prompt := prompt w; resultImage := resultImage w;
     loading := loading w; calls := calls w |}.

Definition setPrompt (p : JsString) (w : World) : World :=
  {| file := file w; prompt := p; resultImage := resultImage w;
     loading := loading w; calls := calls w |}.

Definition setResultImage (r : option JsString) (w : World) : World :=
  {| file := file w; prompt := prompt w; resultImage := r;
     loading := loading w; calls := calls w |}.

Definition setLoading (b : bool) (w : World) : World :=
  {| file := file w; prompt := prompt w; resultImage := resultImage w;
     loading := b; calls := calls w |}.

Definition record (c : Call) : JS World unit :=
  modify (fun w =>
    {| file := file w; prompt := prompt w; resultImage := resultImage w;
       loading := loading w; calls := calls w ++ [c] |}).

Record Env : Type := {
  newGoogleGenAI : Result unit;
  blobToBase64 : Promise JsString;
  generateContent : Promise Response
}.

Definition hasInlineData (p : Part) : bool :=
  match inlineData p with Some _ => true | None => false end.

Definition handleFileChange (files : option (list File)) : JS World unit :=
  match files with
  | Some (f :: _) =>
      modify (setFile (Some f)) ;;
      modify (setResultImage None)
  | _ => ret tt
  end.

Definition handleEdit (env : Env) : JS World unit :=
  file <- gets file ;;
  prompt <- gets prompt ;;
  resultImage <- gets resultImage ;;
  match file with
  | Some file =>
      if truthy prompt then
        modify (setLoading true) ;;
        modify (setResultImage None) ;;
        tryFinally
          (tryCatch
             (call (newGoogleGenAI env) ;;
              record (BlobToBase64 file) ;;
              base64Data <- await (blobToBase64 env) ;;
              record (GenerateContent base64Data (type file) prompt) ;;
              response <- await (generateContent env) ;;
              (* Extract image from parts *)
              let parts := parts response in
              whenSome parts (fun parts =>
                match find hasInlineData parts with
                | Some {| inlineData := Some image |} =>
                    let imgUrl := js "data:image/png;base64," ++ interpolate (data image) in
                    modify (setResultImage (Some imgUrl))
                | _ => ret tt
                end) ;;
              when (negb (truthy (orElse resultImage []))
                    && negb (match parts with
                             | Some parts => existsb hasInlineData parts
                             | None => false
                             end))
                (record (ConsoleWarn (js "No image returned"))))
             (fun e =>
                record ConsoleError ;;
                record (Alert (js "Failed to edit image"))))
          (modify (setLoading false))
      else ret tt
  | None => ret tt
  end.


(** *** Sample run *)

Definition picture : File := {| name := js "cat.png"; type := js "image/png" |}.

Definition ready : World :=
  Eval vm_compute in
    setPrompt (js "Make it rain") (fst (handleFileChange (Some [picture]) initial)).

(** The model answers with text only. *)
Definition textOnly : Env := {|
  newGoogleGenAI := Returns tt;
  blobToBase64 := Fulfilled (js "iVBORw0KGgo=");
  generateContent :=
    Fulfilled {| parts := Some [{| inlineData := None; text := Some (js "I cannot") |}] |}
|}.

(** *** Further summaries *)

(** A step of the edit fails with [e]. *)
Definition failsWith (env : Env) (e : Thrown) : Prop :=
  newGoogleGenAI env = Throws e
  \/ (newGoogleGenAI env = Returns tt /\ blobToBase64 env = Rejected e)
  \/ (newGoogleGenAI env = Returns tt
      /\ (exists base64Data, blobToBase64 env = Fulfilled base64Data)
      /\ generateContent env = Rejected e).

Definition isAlert (c : Call) : bool :=
  match c with Alert _ => true | _ => false end.

(** The model answers with text and then two images. *)
Definition twoImages : Env := {|
  newGoogleGenAI := Returns tt;
  blobToBase64 := Fulfilled (js "iVBORw0KGgo=");
  generateContent :=
    Fulfilled {| parts := Some
      [{| inlineData := None; text := Some (js "Here you are") |};
       {| inlineData := Some {| data := Some (js "AAA") |}; text := None |};
       {| inlineData := Some {| data := Some (js "BBB") |}; text := None |}] |}
|}.

(** The request is refused. *)
Definition refused : Env := {|
  newGoogleGenAI := Returns tt;
  blobToBase64 := Fulfilled (js "iVBORw0KGgo=");
  generateContent := Rejected ThrownNullish
|}.

End ImageEditor.

(** ** SearchQuery: the search panel *)

Module SearchQuery.

(** [GroundingChunk] of types.ts: an optional [web] citation, a URI and a
    title. *)
Record GroundingChunk : Type := { web : option (JsString * JsString) }.

(** Modelled from the spec: the SDK's response type is not among the
    sources; section 6 describes generated text and optional grounding
    citations. [chunks] stands for
    [result.candidates?.[0]?.groundingMetadata?.groundingChunks]. *)
Record SearchResult : Type := {
  text : option JsString;
  chunks : option (list GroundingChunk)
}.

Inductive Call : Type :=
| PreventDefault
| GenerateContent (contents : JsString).

Definition isRemote (c : Call) : bool :=
  match c with
  | GenerateContent _ => true
  | PreventDefault => false
  end.

Record World : Type := {
  query : JsString;
  response : JsString;
  groundingChunks : list GroundingChunk;
  loading : bool;
  calls : list Call
}.

Definition initial : World := {|
  query := []; response := []; groundingChunks := []; loading := false; calls := []
|}.

Definition setQuery (q : JsString) (w : World) : World :=
  {| query := q; response := response w; groundingChunks := groundingChunks w;
     loading := loading w; calls := calls w |}.

Definition setResponse (r : JsString) (w : World) : World :=
  {| query := query w; response := r; groundingChunks := groundingChunks w;
     loading := loading w; calls := calls w |}.

Definition setGroundingChunks (g : list GroundingChunk) (w : World) : World :=
  {| query := query w; response := response w; groundingChunks := g;
     loading := loading w; calls := calls w |}.

Definition setLoading (b : bool) (w : World) : World :=
  {| query := query w; response := response w; groundingChunks := groundingChunks w;
     loading := b; calls := calls w |}.

Definition record (c : Call) : JS World unit :=
  modify (fun w =>
    {| query := query w; response := response w;
       groundingChunks := groundingChunks w;
       loading := loading w; calls := calls w ++ [c] |}).

Record Env : Type := {
  newGoogleGenAI : Result unit;
  generateContent : Promise SearchResult
}.

Definition handleSearch (env : Env) : JS World unit :=
  record PreventDefault ;;
  query <- gets query ;;
  if truthy (trim query) then
    modify (setLoading true) ;;
    modify (setResponse []) ;;
    modify (setGroundingChunks []) ;;
    tryFinally
      (tryCatch
         (call (newGoogleGenAI env) ;;
          record (GenerateContent query) ;;
          result <- await (generateContent env) ;;
          modify (setResponse (orElse (text result) (js "No response generated."))) ;;
          let chunks := match chunks result with Some l => l | None => [] end in
          modify (setGroundingChunks chunks))
         (fun err =>
            match messageOf err with
            | inl typeError => throw typeError
            | inr message =>
                modify (setResponse (js "Error: " ++ interpolate message))
            end))
      (modify (setLoading false))
  else ret tt.

(** *** Sample environment *)

(** The network is down. *)
Definition offline : Env := {|
  newGoogleGenAI := Returns tt;
  generateContent := Rejected (newError (js "Failed to fetch"))
|}.

(** *** Further summaries *)

(** The query has a code unit that is not white space. *)
Definition hasText (s : JsString) : bool :=
  existsb (fun c => negb (isWhiteSpace c)) s.

Definition asked : World := setQuery (js " argot ") initial.

(** The service answers without text and without citations. *)
Definition mute : Env := {|
  newGoogleGenAI := Returns tt;
  generateContent := Fulfilled {| text := None; chunks := None |}
|}.

End SearchQuery.

(** ** The application shell (App.tsx, components/Navigation.tsx, types.ts) *)

Module App.

(** [AppMode] of types.ts; at run time a mode is the string of its member. *)
Inductive AppMode : Type :=
| LIVE_CONVERSATION
| VEO_ANIMATOR
| SCENARIO_BUILDER
| CULTURAL_SEARCH.

Definition value (m : AppMode) : JsString :=
  match m with
  | LIVE_CONVERSATION => js "conversation"
  | VEO_ANIMATOR => js "animator"
  | SCENARIO_BUILDER => js "scenario"
  | CULTURAL_SEARCH => js "search"
  end.

(** [a === b] on strings. *)
Fixpoint strictEquals (a b : JsString) : bool :=
  match a, b with
  | [], [] => true
  | x :: a', y :: b' => (x =? y)%N && strictEquals a' b'
  | _, _ => false
  end.

(** [NavItem] of types.ts, without its icon. *)
Record NavItem : Type := {
  id : AppMode;
  label : JsString;
  description : JsString
}.

Definition navItems : list NavItem := [
  {| id := LIVE_CONVERSATION; label := js "Live Tutor";
     description := js "Practice speaking in real-time" |};
  {| id := SCENARIO_BUILDER; label := js "Scenario Builder";
     description := js "Edit images for roleplay contexts" |};
  {| id := VEO_ANIMATOR; label := js "Visual Vocab";
     description := js "Animate words into video" |};
  {| id := CULTURAL_SEARCH; label := js "Cultural Insight";
     description := js "Ask grounded cultural questions" |}
].

(** The component shown in the main area. *)
Inductive Panel : Type :=
| LiveConversationPanel
| VeoAnimatorPanel
| ImageEditorPanel
| SearchQueryPanel.

(** [renderContent] of App.tsx: a [switch] on the mode with a default
    branch. *)
Definition renderContent (mode : JsString) : Panel :=
  if strictEquals mode (value LIVE_CONVERSATION) then LiveConversationPanel
  else if strictEquals mode (value VEO_ANIMATOR) then VeoAnimatorPanel
  else if strictEquals mode (value SCENARIO_BUILDER) then ImageEditorPanel
  else if strictEquals mode (value CULTURAL_SEARCH) then SearchQueryPanel
  else LiveConversationPanel.

(** A button of the side bar: the mode its click passes to [onModeChange],
    whether it carries the highlight classes, and its caption. *)
Record Button : Type := {
  onClick : JsString;
  highlighted : bool;
  caption : JsString
}.

(** [Navigation]: one button for each item, in order. *)
Definition Navigation (currentMode : JsString) : list Button :=
  map (fun item =>
         {| onClick := value (id item);
            highlighted := strictEquals currentMode (value (id item));
            caption := label item |})
      navItems.

(** [useState<AppMode>(AppMode.LIVE_CONVERSATION)] *)
Definition initialMode : JsString := value LIVE_CONVERSATION.

(** A click on the [i]-th button of the side bar; [onModeChange] is
    [setMode]. Outside the side bar there is nothing to click. *)
Definition click (i : nat) (mode : JsString) : JsString :=
  match nth_error (Navigation mode) i with
  | Some button => onClick button
  | None => mode
  end.

Definition run (clicks : list nat) : JsString :=
  fold_left (fun mode i => click i mode) clicks initialMode.

End App.

(** ** The spectrum display (components/AudioVisualizer.tsx) *)

Module AudioVisualizer.

(** Coordinates are exact rationals, as the playback times are. The canvas is
    created with [width={300} height={100}]. *)
Record Canvas : Type := { width : Q; height : Q }.

Definition canvas : Canvas := {| width := 300; height := 100 |}.

(** A bar passed to [roundRect], with the [globalAlpha] it is filled at. *)
Record Bar : Type := {
  x : Q;
  y : Q;
  w : Q;
  h : Q;
  globalAlpha : Q
}.

Inductive Call : Type :=
| ClearRect (width height : Q)
| RequestAnimationFrame
| GetByteFrequencyData
| Fill (bar : Bar).

(** The [for] loop of [draw], from position [x] on. *)
Fixpoint bars (cv : Canvas) (barWidth x : Q) (dataArray : list Z) : list Bar :=
  match dataArray with
  | [] => []
  | d :: rest =>
      let barHeight := (inject_Z d / 2)%Q in
      let alpha := Qmin 1 (barHeight / 100 + (2 # 10))%Q in
      {| x := x; y := (height cv - barHeight)%Q; w := barWidth; h := barHeight;
         globalAlpha := alpha |}
      :: bars cv barWidth (x + (barWidth + 1))%Q rest
  end.

(** [draw]: [dataArray] is what [getByteFrequencyData] writes, one byte for
    each of the [bufferLength] bins. *)
Definition draw (isActive : bool) (cv : Canvas) (dataArray : list Z) : list Call :=
  if negb isActive then [ClearRect (width cv) (height cv)]
  else
    let bufferLength := inject_Z (Z.of_nat (List.length dataArray)) in
    let barWidth := ((width cv / bufferLength) * (25 # 10))%Q in
    [RequestAnimationFrame; GetByteFrequencyData; ClearRect (width cv) (height cv)]
    ++ map Fill (bars cv barWidth 0 dataArray).

(** The bars of a frame. *)
Definition drawn (calls : list Call) : list Bar :=
  flat_map (fun c => match c with Fill b => [b] | _ => [] end) calls.

Definition isByte (d : Z) : Prop := (0 <= d <= 255)%Z.

(** The analysers are created with [fftSize = 256]: 128 bins. *)
Definition silence : list Z := repeat 0%Z 128.

End AudioVisualizer.

(** * Facts *)

(** ** Lists, strings and the handler monad *)

Lemma skipn_length_app {A} (l l' : list A) : skipn (List.length l) (l ++ l') = l'.
Proof. induction l; simpl; auto. Qed.

Lemma find_none_existsb {A} (p : A -> bool) l :
  existsb p l = false -> find p l = None.
Proof.
  induction l as [|x l IH]; simpl; [reflexivity|].
  destruct (p x); simpl; [discriminate|exact IH].
Qed.

Lemma orElse_truthy m fallback :
  truthy fallback = true -> truthy (orElse m fallback) = true.
Proof.
  intro H. unfold orElse. destruct m as [v|]; [|exact H].
  destruct (truthy v) eqn:E; assumption.
Qed.

Lemma orElse_Some_truthy v fallback :
  truthy v = true -> orElse (Some v) fallback = v.
Proof. intro H. unfold orElse. now rewrite H. Qed.

Lemma trimStart_whitespace s : forallb isWhiteSpace s = true -> trimStart s = [].
Proof.
  induction s as [|c s IH]; simpl; [reflexivity|].
  intro H. apply andb_prop in H as [-> H]. now apply IH.
Qed.

Lemma trim_whitespace s : forallb isWhiteSpace s = true -> trim s = [].
Proof. intro H. unfold trim, trimEnd. now rewrite (trimStart_whitespace _ H). Qed.

(** A [try ... finally] that settles ends in the state its [finally] block
    leaves. *)
Lemma tryFinally_settled {S A} (body : JS S A) (fin : JS S unit) s s' c :
  tryFinally body fin s = (s', c) ->
  c <> Pending ->
  exists s0, s' = fst (fin s0).
Proof.
  unfold tryFinally.
  destruct (body s) as [s0 [a|e|]].
  - destruct (fin s0) as [s1 [[]|e'|]] eqn:E; intros [= <- <-] H;
      (exists s0; now rewrite E) || now destruct H.
  - destruct (fin s0) as [s1 [[]|e'|]] eqn:E; intros [= <- <-] H;
      (exists s0; now rewrite E) || now destruct H.
  - intros [= <- <-] H. now destruct H.
Qed.

(** ** The live session controller *)

Section LiveConversationFacts.

Import LiveConversation.

Ltac live_unfold :=
  cbv [bind ret gets modify throw call await tryCatch tryFinally when whenSome
       setIsConnected setError setTranscription setInputAudioContextRef
       setOutputAudioContextRef setMediaStreamRef setSessionRef setSourcesRef
       setNextStartTimeRef setTimers record allocate appendCalls
       fresh close trackStop setTimeout
       isConnected error transcription inputAudioContextRef
       outputAudioContextRef mediaStreamRef sessionRef sourcesRef
       nextStartTimeRef timers calls nextObject
       newGoogleGenAI newInputAudioContext newOutputAudioContext getUserMedia
       currentTime timeMs decodeAudioData
       outputTranscription inputTranscription turnComplete inlineAudio interrupted].

Lemma appendCalls_app cs1 cs2 w :
  appendCalls cs2 (appendCalls cs1 w) = appendCalls (cs1 ++ cs2) w.
Proof. unfold appendCalls; simpl. now rewrite app_assoc. Qed.

Lemma appendCalls_nil w : appendCalls [] w = w.
Proof. destruct w; unfold appendCalls; simpl. now rewrite app_nil_r. Qed.

Lemma started_app s l l' : started s (l ++ l') = started s l || started s l'.
Proof. apply existsb_app. Qed.

Lemma stopped_app s l l' : stopped s (l ++ l') = stopped s l || stopped s l'.
Proof. apply existsb_app. Qed.

Lemma started_stops s l ss : started s (l ++ map SourceStop ss) = started s l.
Proof.
  rewrite started_app. induction ss as [|x ss IH]; simpl.
  - apply orb_false_r.
  - exact IH.
Qed.

Lemma stopped_stops s ss : In s ss -> stopped s (map SourceStop ss) = true.
Proof.
  induction ss as [|x ss IH]; simpl; [tauto|].
  intros [->|H].
  - now rewrite Nat.eqb_refl.
  - rewrite IH by assumption. apply orb_true_r.
Qed.

Lemma forEach_trackStop tracks w :
  forEach tracks trackStop w = (appendCalls (map TrackStop tracks) w, Normal tt).
Proof.
  revert w. induction tracks as [|t tracks IH]; intro w; simpl.
  - unfold ret. now rewrite appendCalls_nil.
  - unfold bind, trackStop, modify. rewrite IH.
    change (record (TrackStop t) w) with (appendCalls [TrackStop t] w).
    now rewrite appendCalls_app.
Qed.

Lemma forEach_stop sources w :
  (forall s, In s sources -> started s (calls w) = true) ->
  forEach sources stop w = (appendCalls (map SourceStop sources) w, Normal tt).
Proof.
  revert w. induction sources as [|x sources IH]; intros w Hs; simpl.
  - unfold ret. now rewrite appendCalls_nil.
  - unfold bind, stop at 1. rewrite (Hs x) by now left.
    change (record (SourceStop x) w) with (appendCalls [SourceStop x] w).
    rewrite IH.
    + now rewrite appendCalls_app.
    + intros s H. simpl. rewrite started_app, (Hs s) by now right. reflexivity.
Qed.

Lemma forEach_tryStop sources w :
  forEach sources (fun s => tryCatch (stop s) (fun _ => ret tt)) w =
  (appendCalls (map SourceStop (filter (fun s => started s (calls w)) sources)) w,
   Normal tt).
Proof.
  revert w. induction sources as [|x sources IH]; intro w; simpl.
  - unfold ret. now rewrite appendCalls_nil.
  - unfold bind, tryCatch, stop at 1.
    destruct (started x (calls w)) eqn:E.
    + change (record (SourceStop x) w) with (appendCalls [SourceStop x] w).
      rewrite IH, appendCalls_app. simpl.
      rewrite (filter_ext (fun s => started s (calls w ++ [SourceStop x]))
                          (fun s => started s (calls w)));
        [reflexivity | intro s; apply (started_stops s (calls w) [x])].
    + unfold ret. apply IH.
Qed.

Lemma started_no_start s l l' :
  forallb (fun c => negb (isStart c)) l' = true -> started s (l ++ l') = started s l.
Proof.
  intro H. rewrite started_app.
  replace (started s l') with false; [apply orb_false_r|].
  symmetry. induction l' as [|c l' IH]; simpl in *; [reflexivity|].
  apply andb_prop in H as [Hc Hl]. rewrite (IH Hl).
  destruct c; simpl in *; try reflexivity; discriminate.
Qed.

Lemma noStart_trackStops tracks :
  forallb (fun c => negb (isStart c)) (map TrackStop tracks) = true.
Proof. induction tracks; simpl; auto. Qed.

Lemma filter_started_frame sources log extra :
  forallb (fun c => negb (isStart c)) extra = true ->
  filter (fun s => started s (log ++ extra)) sources =
  filter (fun s => started s log) sources.
Proof.
  intro H. apply filter_ext. intro s. now apply started_no_start.
Qed.

Lemma cleanup_eq w : cleanup w = (cleaned w, Normal tt).
Proof.
  destruct w as [c e tr ic oc ms se so ns ti ca no].
  unfold cleanup, cleaned, cleanupCalls.
  destruct ms as [tracks|], ic as [ictx|], oc as [octx|];
    live_unfold; rewrite ?forEach_trackStop;
    live_unfold; rewrite ?forEach_tryStop;
    live_unfold; repeat rewrite <- app_assoc;
    rewrite ?filter_started_frame
      by (rewrite ?forallb_app, ?noStart_trackStops; reflexivity);
    rewrite ?app_nil_r; reflexivity.
Qed.

(** *** The invariant of the playback set *)

Lemma Inv_initial : Inv initial.
Proof. split; simpl; [tauto | reflexivity]. Qed.

Lemma Inv_frame w w' :
  incl (sourcesRef w') (sourcesRef w) ->
  (exists cs, calls w' = calls w ++ cs) ->
  (outputAudioContextRef w' = None ->
   outputAudioContextRef w = None \/ sourcesRef w' = []) ->
  Inv w -> Inv w'.
Proof.
  intros Hs [cs Hc] Ho [I1 I2]. split.
  - intros s H. rewrite Hc, started_app, (I1 s (Hs s H)). reflexivity.
  - intro H. destruct (Ho H) as [H'|H']; [|exact H'].
    specialize (I2 H'). rewrite I2 in Hs.
    destruct (sourcesRef w') as [|x l]; [reflexivity|].
    destruct (Hs x (or_introl eq_refl)).
Qed.

Lemma Inv_cleaned w : Inv w -> Inv (cleaned w).
Proof.
  intro I. apply Inv_frame with (w := w); [| | | exact I].
  - unfold cleaned; simpl. destruct (outputAudioContextRef w); [intros x []|apply incl_refl].
  - eexists. reflexivity.
  - intros _. unfold cleaned; simpl.
    destruct (outputAudioContextRef w); [now right | now left].
Qed.

Lemma In_setAdd s x l : In s (setAdd x l) -> s = x \/ In s l.
Proof.
  unfold setAdd. destruct (existsb (Nat.eqb x) l); [now right|].
  intro H. apply in_app_or in H as [H|[H|[]]]; auto.
Qed.

Lemma In_setDelete s x l : In s (setDelete x l) -> In s l.
Proof. unfold setDelete. intro H. now apply filter_In in H. Qed.

Lemma handleAudioOutput_eq env message w :
  handleAudioOutput env message w =
  (if playable message w then
     match decodeAudioData env with
     | Returns d => scheduled (currentTime env) d w
     | Throws _ => setNextStartTimeRef (Qmax (nextStartTimeRef w) (currentTime env)) w
     end
   else w, Normal tt).
Proof.
  destruct w as [c e tr ic oc ms se so ns ti ca no],
           message as [ot it tc ia ir], env as [now ms' dec].
  unfold handleAudioOutput, playable, scheduled.
  destruct ia as [[|a0 a]|], oc as [octx|], dec as [d|ex]; reflexivity.
Qed.

Lemma handleTranscription_normal message w :
  exists f, handleTranscription message w = (setTranscription f w, Normal tt).
Proof.
  destruct w as [c e tr ic oc ms se so ns ti ca no],
           message as [[ot|] [it|] tc ia ir], tr as [u m];
    unfold handleTranscription; live_unfold.
  - now exists (fun prev => {| user := user prev ++ it; model := model prev ++ ot |}).
  - now exists (fun prev => {| user := user prev; model := model prev ++ ot |}).
  - now exists (fun prev => {| user := user prev ++ it; model := model prev |}).
  - now exists (fun prev => prev).
Qed.

Lemma handleTurnComplete_eq env message w :
  handleTurnComplete env message w =
  (if turnComplete message
   then setTimers (timers w ++ [((timeMs env + 3000)%Z, ClearTranscription)]) w
   else w, Normal tt).
Proof. unfold handleTurnComplete. destruct (turnComplete message); reflexivity. Qed.

Lemma handleTranscription_snd message w :
  snd (handleTranscription message w) = Normal tt.
Proof. destruct (handleTranscription_normal message w) as [f ->]. reflexivity. Qed.

Lemma onmessage_blocks env message w :
  onmessage env message w =
  handleInterruption message (beforeInterruption env message w).
Proof.
  unfold onmessage, beforeInterruption. cbv [bind].
  destruct (handleTranscription_normal message w) as [f ->]. cbn [fst].
  rewrite handleTurnComplete_eq. cbn [fst].
  rewrite handleAudioOutput_eq. reflexivity.
Qed.

Lemma handleInterruption_eq message w :
  (forall s, In s (sourcesRef w) -> started s (calls w) = true) ->
  handleInterruption message w =
  (if interrupted message then flushed w else w, Normal tt).
Proof.
  intro H. unfold handleInterruption.
  destruct (interrupted message); [|reflexivity].
  cbv [when bind gets]. rewrite (forEach_stop _ _ H).
  destruct w; reflexivity.
Qed.

Lemma Inv_beforeInterruption env message w :
  Inv w -> Inv (beforeInterruption env message w).
Proof.
  intros [I1 I2]. unfold beforeInterruption.
  destruct (handleTranscription_normal message w) as [f ->].
  cbn [fst]. rewrite handleTurnComplete_eq. cbn [fst].
  rewrite handleAudioOutput_eq. cbn [fst].
  set (w1 := if turnComplete message then _ else _).
  assert (F : sourcesRef w1 = sourcesRef w /\ calls w1 = calls w
              /\ outputAudioContextRef w1 = outputAudioContextRef w
              /\ nextObject w1 = nextObject w)
    by (subst w1; destruct (turnComplete message); repeat split).
  destruct F as (Fs & Fc & Fo & Fn).
  assert (I : Inv w1)
    by (split; [rewrite Fs, Fc; exact I1 | rewrite Fs, Fo; exact I2]).
  clearbody w1. clear - I.
  destruct (playable message w1) eqn:P; [|exact I].
  destruct (decodeAudioData env) as [d|ex].
  - destruct I as [I1 I2]. split; simpl.
    + intros s H. rewrite started_app. apply In_setAdd in H as [->|H].
      * simpl. rewrite Nat.eqb_refl. apply orb_true_r.
      * now rewrite (I1 s H).
    + intro H. unfold playable in P. rewrite H in P.
      destruct (inlineAudio message); discriminate.
  - exact I.
Qed.

Lemma Inv_onmessage env message w : Inv w -> Inv (fst (onmessage env message w)).
Proof.
  intro I. rewrite onmessage_blocks.
  apply (Inv_beforeInterruption env message) in I.
  rewrite (handleInterruption_eq _ _ (proj1 I)).
  destruct (interrupted message); [|exact I].
  split; simpl; [tauto | reflexivity].
Qed.

Lemma runTimers_frame now w :
  sourcesRef (runTimers now w) = sourcesRef w
  /\ calls (runTimers now w) = calls w
  /\ outputAudioContextRef (runTimers now w) = outputAudioContextRef w
  /\ isConnected (runTimers now w) = isConnected w.
Proof.
  unfold runTimers.
  set (w0 := setTimers _ w).
  change (sourcesRef w) with (sourcesRef w0).
  change (calls w) with (calls w0).
  change (outputAudioContextRef w) with (outputAudioContextRef w0).
  change (isConnected w) with (isConnected w0).
  generalize w0. clear w0.
  induction (filter _ (timers w)) as [|[due cb] l IH]; intro w0; simpl.
  - auto.
  - destruct (IH (runCallback cb w0)) as (-> & -> & -> & ->).
    destruct cb; auto.
Qed.

Lemma Inv_startSession env w : Inv w -> Inv (fst (startSession env w)).
Proof.
  intro I.
  assert (M : forall w', sourcesRef w' = sourcesRef w -> calls w' = calls w ->
              (outputAudioContextRef w' = outputAudioContextRef w
               \/ outputAudioContextRef w' <> None) -> Inv w').
  { intros w' Hs Hc Ho. apply Inv_frame with (w := w); [| | |exact I].
    - rewrite Hs. apply incl_refl.
    - exists []. now rewrite app_nil_r.
    - intro H. destruct Ho as [Ho|Ho]; [left; congruence | contradiction]. }
  destruct w as [c e tr ic oc ms se so ns ti ca no],
           env as [[[]|e1] [[]|e2] [[]|e3] [n|e4|]];
    unfold startSession; live_unfold;
    try (apply M; simpl; auto; right; discriminate);
    match goal with
    | |- context [messageOf ?e] => destruct e as [|[m|]]
    end; cbv [messageOf newError fst];
    try (apply M; simpl; auto; right; discriminate);
    rewrite cleanup_eq; apply Inv_cleaned, M; simpl; auto; right; discriminate.
Qed.

Lemma Inv_handle ev w : Inv w -> Inv (handle ev w).
Proof.
  intro I. destruct ev; simpl.
  - now apply Inv_startSession.
  - exact I.
  - now apply Inv_onmessage.
  - exact I.
  - exact I.
  - rewrite cleanup_eq. now apply Inv_cleaned.
  - apply Inv_frame with (w := w); [| | |exact I]; simpl.
    + intros s H. now apply In_setDelete in H.
    + exists []. now rewrite app_nil_r.
    + intro H. now left.
  - destruct (runTimers_frame now w) as (Hs & Hc & Ho & _).
    destruct I as [I1 I2]. split; rewrite Hs; [rewrite Hc; exact I1 | rewrite Ho; exact I2].
Qed.

Lemma Inv_run evs w : Inv w -> Inv (run evs w).
Proof.
  revert w. induction evs as [|ev evs IH]; intros w I; simpl; [exact I|].
  apply IH, Inv_handle, I.
Qed.

Lemma reachable_Inv w : reachable w -> Inv w.
Proof. intros [evs ->]. apply Inv_run, Inv_initial. Qed.

Lemma In_setAdd_self x l : In x (setAdd x l).
Proof.
  unfold setAdd. destruct (existsb (Nat.eqb x) l) eqn:E.
  - apply existsb_exists in E as (y & Hy & Exy).
    apply Nat.eqb_eq in Exy. now subst.
  - apply in_or_app. right. now left.
Qed.

Lemma In_setAdd_old s x l : In s l -> In s (setAdd x l).
Proof.
  unfold setAdd. destruct (existsb (Nat.eqb x) l); [auto|].
  intro H. apply in_or_app. now left.
Qed.

(** What the blocks before the interruption block do to the playback set
    and to the log: nothing, or one more started source. *)
Lemma beforeInterruption_sources env message w :
  let w3 := beforeInterruption env message w in
  (sourcesRef w3 = sourcesRef w /\ calls w3 = calls w)
  \/ (exists d t,
        sourcesRef w3 = setAdd (nextObject w) (sourcesRef w)
        /\ calls w3 = calls w ++ [SourceStart (nextObject w) d t]).
Proof.
  unfold beforeInterruption.
  destruct (handleTranscription_normal message w) as [f ->]. cbn [fst].
  rewrite handleTurnComplete_eq. cbn [fst].
  rewrite handleAudioOutput_eq. cbn [fst].
  destruct (turnComplete message);
    match goal with |- context [playable message ?x] =>
      destruct (playable message x) end;
    try (left; split; reflexivity);
    (destruct (decodeAudioData env) as [d|ex];
     [right; eexists; eexists; split; reflexivity | left; split; reflexivity]).
Qed.

(** C2. After the message handler has processed a message carrying the
    interrupted flag, in any state the component can reach, the handler has
    completed without an exception, the tracked set of playback sources is
    empty, [stop()] has been called on every source that was in the set and
    on the source the same message may have started, and the next-start-time
    cursor is zero. *)
Theorem interruption_flushes_playback env message w :
  reachable w ->
  interrupted message = true ->
  exists w',
    onmessage env message w = (w', Normal tt)
    /\ sourcesRef w' = []
    /\ nextStartTimeRef w' = 0%Q
    /\ (forall s, In s (sourcesRef w) -> stopped s (calls w') = true)
    /\ (forall s, started s (calls w') = true ->
                  started s (calls w) = false -> stopped s (calls w') = true).
Proof.
  intros R Hi. apply reachable_Inv in R.
  pose proof (Inv_beforeInterruption env message R) as [I3 _].
  rewrite onmessage_blocks, (handleInterruption_eq _ _ I3), Hi.
  eexists. split; [reflexivity|]. simpl.
  repeat split.
  - intros s H. rewrite stopped_app. apply orb_true_iff. right.
    apply stopped_stops.
    destruct (beforeInterruption_sources env message w) as [[-> _]|(d & t & -> & _)];
      [exact H | now apply In_setAdd_old].
  - intros s H1 H0. rewrite started_stops in H1.
    rewrite stopped_app. apply orb_true_iff. right. apply stopped_stops.
    destruct (beforeInterruption_sources env message w) as [[_ E]|(d & t & -> & E)];
      rewrite E in H1.
    + congruence.
    + rewrite started_app, H0 in H1. simpl in H1.
      rewrite orb_false_r in H1. apply Nat.eqb_eq in H1. subst s.
      apply In_setAdd_self.
Qed.

Lemma interruption_flushes_playback_witness :
  reachable sessionPlaying
  /\ exists w',
       onmessage (reading 1 1) (audioMessage true) sessionPlaying = (w', Normal tt)
       /\ sourcesRef w' = []
       /\ nextStartTimeRef w' = 0%Q
       /\ stopped 4 (calls w') = true.
Proof.
  assert (R : reachable sessionPlaying)
    by (exists [StartSession granted; OnOpen;
                OnMessage (reading 0 10) (audioMessage false)];
        vm_compute; reflexivity).
  split; [exact R|].
  destruct (interruption_flushes_playback (reading 1 1) (audioMessage true) R eq_refl)
    as (w' & E & Hs & Hn & Hstop & _).
  exists w'. repeat split; try assumption.
  apply Hstop. now left.
Defined.

Lemma cleaned_cleaned w : cleaned (cleaned w) = cleaned w.
Proof.
  unfold cleaned at 1. unfold cleanupCalls. simpl. now rewrite app_nil_r.
Qed.

(** C4. In any state the component can reach, the teardown completes
    without an exception and leaves the media stream, both audio contexts
    and the session handle null and the playback source set empty; invoked
    again at once it completes without an exception and changes nothing. *)
Theorem cleanup_idempotent w :
  reachable w ->
  exists w1,
    cleanup w = (w1, Normal tt)
    /\ mediaStreamRef w1 = None
    /\ inputAudioContextRef w1 = None
    /\ outputAudioContextRef w1 = None
    /\ sessionRef w1 = None
    /\ sourcesRef w1 = []
    /\ cleanup w1 = (w1, Normal tt).
Proof.
  intro R. apply reachable_Inv in R. destruct R as [_ I2].
  exists (cleaned w). rewrite !cleanup_eq, cleaned_cleaned.
  repeat split. simpl.
  destruct (outputAudioContextRef w); [reflexivity | now apply I2].
Qed.

Lemma cleanup_idempotent_witness :
  reachable sessionPlaying
  /\ exists w1,
       cleanup sessionPlaying = (w1, Normal tt)
       /\ mediaStreamRef w1 = None
       /\ sourcesRef w1 = []
       /\ cleanup w1 = (w1, Normal tt).
Proof.
  assert (R : reachable sessionPlaying)
    by (exists [StartSession granted; OnOpen;
                OnMessage (reading 0 10) (audioMessage false)];
        vm_compute; reflexivity).
  split; [exact R|].
  destruct (cleanup_idempotent R) as (w1 & E & Hm & _ & _ & _ & Hs & E2).
  exists w1. repeat split; assumption.
Defined.

(** C3. On the open session [sessionPlaying] (microphone stream, both audio
    contexts, session handle and one scheduled source present) the [onerror]
    callback sets the error message and clears the connected flag, and that
    is all: the stream, the contexts, the session handle and the playback
    set are as before and no call is made on any of them, whereas [cleanup]
    from the same state nulls the four handles, empties the set and stops
    the track, the source and both contexts. *)
Theorem onerror_keeps_resources err :
  let w' := fst (onerror err sessionPlaying) in
  let torn := fst (cleanup sessionPlaying) in
  (error w' = Some (js "Connection error occurred.")
   /\ isConnected w' = false)
  /\ (mediaStreamRef w' = Some [2%nat]
      /\ inputAudioContextRef w' = Some 0%nat
      /\ outputAudioContextRef w' = Some 1%nat
      /\ sessionRef w' = Some 3%nat
      /\ sourcesRef w' = [4%nat]
      /\ calls w' = calls sessionPlaying)
  /\ (mediaStreamRef torn = None
      /\ inputAudioContextRef torn = None
      /\ outputAudioContextRef torn = None
      /\ sessionRef torn = None
      /\ sourcesRef torn = []
      /\ calls torn =
         calls sessionPlaying
         ++ [TrackStop 2; ContextClose 0; SourceStop 4; ContextClose 1]).
Proof. vm_compute. repeat split. Qed.

(** *** The playback schedule *)

Lemma forEach_stop_any sources w :
  exists ss c, forEach sources stop w = (appendCalls (map SourceStop ss) w, c).
Proof.
  revert w. induction sources as [|x sources IH]; intro w; simpl.
  - exists [], (Normal tt). now rewrite appendCalls_nil.
  - cbv [bind]. unfold stop at 1. destruct (started x (calls w)).
    + change (record (SourceStop x) w) with (appendCalls [SourceStop x] w).
      destruct (IH (appendCalls [SourceStop x] w)) as (ss & c & ->).
      exists (x :: ss), c. now rewrite appendCalls_app.
    + exists [], (Abrupt InvalidStateError). now rewrite appendCalls_nil.
Qed.

Lemma handleInterruption_any message w :
  exists ss,
    let w' := fst (handleInterruption message w) in
    calls w' = calls w ++ map SourceStop ss
    /\ outputAudioContextRef w' = outputAudioContextRef w
    /\ isConnected w' = isConnected w.
Proof.
  unfold handleInterruption. destruct (interrupted message).
  - cbv [when bind gets].
    destruct (forEach_stop_any (sourcesRef w) w) as (ss & c & ->).
    exists ss. destruct c; simpl; auto.
  - exists []. simpl. now rewrite app_nil_r.
Qed.

Lemma handleInterruption_skip message w :
  interrupted message = false -> handleInterruption message w = (w, Normal tt).
Proof. unfold handleInterruption. now intros ->. Qed.

Lemma beforeInterruption_audio env message w :
  let w3 := beforeInterruption env message w in
  let t := Qmax (nextStartTimeRef w) (currentTime env) in
  outputAudioContextRef w3 = outputAudioContextRef w
  /\ match audible env message w with
     | Some d =>
         calls w3 = calls w ++ [SourceStart (nextObject w) d t]
         /\ nextStartTimeRef w3 = (t + d)%Q
     | None =>
         calls w3 = calls w
         /\ (nextStartTimeRef w3 = t \/ nextStartTimeRef w3 = nextStartTimeRef w)
     end.
Proof.
  destruct w as [c e tr ic [octx|] ms se so ns ti ca no],
           message as [[ot|] [it|] [|] [[|a0 a]|] ir], env as [now ms' [d|ex]];
    cbv [beforeInterruption audible playable
         handleTranscription handleTurnComplete handleAudioOutput truthy];
    live_unfold; cbv [fst]; auto.
Qed.

Lemma slots_stops clock ss : slots clock (map SourceStop ss) = [].
Proof. induction ss; simpl; auto. Qed.

Lemma slots_app clock l l' : slots clock (l ++ l') = slots clock l ++ slots clock l'.
Proof.
  induction l as [|c l IH]; simpl; [reflexivity|].
  destruct c; simpl; now rewrite ?IH.
Qed.

Lemma schedule_step env message w :
  slots (currentTime env)
        (skipn (List.length (calls w)) (calls (fst (onmessage env message w)))) =
  match audible env message w with
  | Some d => [{| slotStart := Qmax (nextStartTimeRef w) (currentTime env);
                  slotDuration := d; slotClock := currentTime env |}]
  | None => []
  end.
Proof.
  rewrite onmessage_blocks.
  destruct (handleInterruption_any message (beforeInterruption env message w))
    as (ss & -> & _).
  destruct (beforeInterruption_audio env message w) as [_ H].
  destruct (audible env message w) as [d|]; destruct H as [-> _].
  - rewrite <- app_assoc, skipn_length_app, slots_app, slots_stops. reflexivity.
  - rewrite skipn_length_app. apply slots_stops.
Qed.

Lemma chainedFrom_weaken c c' l : (c <= c')%Q -> chainedFrom c' l -> chainedFrom c l.
Proof.
  destruct l as [|a l]; simpl; [auto|].
  intros H [H1 H2]. split; [|exact H2]. now apply Qle_trans with c'.
Qed.

Lemma chainedFrom_chained c l : chainedFrom c l -> chained l.
Proof.
  revert c. induction l as [|a [|b l] IH]; intros c H; simpl; auto.
  destruct H as [_ H]. split; [apply H | apply (IH _ H)].
Qed.

Lemma onmessage_outputAudioContextRef env message w :
  outputAudioContextRef (fst (onmessage env message w)) = outputAudioContextRef w.
Proof.
  rewrite onmessage_blocks.
  destruct (handleInterruption_any message (beforeInterruption env message w))
    as (ss & _ & -> & _).
  apply beforeInterruption_audio.
Qed.

Lemma schedule_chainedFrom msgs w :
  Forall (fun em => interrupted (snd em) = false) msgs ->
  chainedFrom (nextStartTimeRef w) (schedule msgs w).
Proof.
  revert w. induction msgs as [|[env message] msgs IH]; intros w H; simpl; [exact I|].
  inversion H as [|x l Hi Hrest]; subst. simpl in Hi.
  rewrite schedule_step.
  specialize (IH (fst (onmessage env message w)) Hrest).
  rewrite onmessage_blocks, (handleInterruption_skip _ _ Hi) in IH |- *.
  cbn [fst] in *.
  destruct (beforeInterruption_audio env message w) as [_ A].
  destruct (audible env message w) as [d|].
  - destruct A as [_ A]. rewrite A in IH. simpl. split; [apply Q.le_max_l | exact IH].
  - simpl. destruct A as [_ [A|A]]; rewrite A in IH; [|exact IH].
    apply chainedFrom_weaken with (2 := IH). apply Q.le_max_l.
Qed.

Lemma schedule_not_in_past msgs w :
  Forall (fun sl => (slotClock sl <= slotStart sl)%Q) (schedule msgs w).
Proof.
  revert w. induction msgs as [|[env message] msgs IH]; intro w; simpl; [constructor|].
  rewrite schedule_step. apply Forall_app. split; [|apply IH].
  destruct (audible env message w); constructor; [|constructor].
  simpl. apply Q.le_max_r.
Qed.

Lemma schedule_durations msgs w :
  outputAudioContextRef w <> None ->
  map slotDuration (schedule msgs w) = flat_map decoded msgs.
Proof.
  revert w. induction msgs as [|[env message] msgs IH]; intros w H; simpl; [reflexivity|].
  rewrite schedule_step, map_app, IH
    by (now rewrite onmessage_outputAudioContextRef).
  f_equal. unfold audible, playable, decoded. simpl.
  destruct (outputAudioContextRef w); [|contradiction].
  destruct (inlineAudio message) as [a|]; [|reflexivity].
  destruct (truthy a), (decodeAudioData env); reflexivity.
Qed.

(** C1, as amended. For every sequence of messages handled one after the
    other by the message handler, from any state: every audio buffer the
    handler starts is started no earlier than the playback clock it read for
    that message; when none of the messages carries the interrupted flag,
    every buffer starts no earlier than the start of the buffer before it
    plus that buffer's duration; and while a playback context is present the
    buffers started are exactly the payloads that decode, in order, each with
    its own duration. *)
Theorem playback_schedule msgs w :
  Forall (fun sl => (slotClock sl <= slotStart sl)%Q) (schedule msgs w)
  /\ (Forall (fun em => interrupted (snd em) = false) msgs ->
      chained (schedule msgs w))
  /\ (outputAudioContextRef w <> None ->
      map slotDuration (schedule msgs w) = flat_map decoded msgs).
Proof.
  split; [apply schedule_not_in_past|]. split.
  - intro H. apply chainedFrom_chained with (nextStartTimeRef w).
    now apply schedule_chainedFrom.
  - apply schedule_durations.
Qed.

Lemma playback_schedule_witness :
  Forall (fun em => interrupted (snd em) = false) (twoPayloads false)
  /\ chained (schedule (twoPayloads false) sessionOpen)
  /\ map slotDuration (schedule (twoPayloads false) sessionOpen) = [10%Q; 1%Q].
Proof.
  destruct (playback_schedule (twoPayloads false) sessionOpen) as (_ & H2 & H3).
  assert (N : Forall (fun em => interrupted (snd em) = false) (twoPayloads false))
    by (repeat constructor).
  split; [exact N|]. split; [exact (H2 N)|].
  apply H3. discriminate.
Defined.

(** C1 as stated fails: two audio payloads of 10 s and 1 s, the first in a
    message that also carries the interrupted flag, read at clock 0 and 1,
    are started at 0 and at 1, so the second starts before the first has
    ended. *)
Lemma interrupted_payload_breaks_chain :
  map slotStart (schedule (twoPayloads true) sessionOpen) = [0%Q; 1%Q]
  /\ map slotDuration (schedule (twoPayloads true) sessionOpen) = [10%Q; 1%Q]
  /\ ~ chained (schedule (twoPayloads true) sessionOpen).
Proof.
  vm_compute. split; [reflexivity|]. split; [reflexivity|].
  intros [H _]. now apply H.
Qed.

(** *** Turn completion *)

Lemma stop_setTimers x ts w :
  stop x (setTimers ts w) = (setTimers ts (fst (stop x w)), snd (stop x w)).
Proof.
  unfold stop. change (calls (setTimers ts w)) with (calls w).
  destruct (started x (calls w)); reflexivity.
Qed.

Lemma forEach_stop_setTimers sources ts w :
  forEach sources stop (setTimers ts w) =
  (setTimers ts (fst (forEach sources stop w)), snd (forEach sources stop w)).
Proof.
  revert w. induction sources as [|x sources IH]; intro w; simpl; [reflexivity|].
  cbv [bind]. rewrite stop_setTimers.
  destruct (stop x w) as [w' [[]|e|]]; cbn [fst snd]; [apply IH | reflexivity..].
Qed.

Lemma handleInterruption_setTimers message ts w :
  handleInterruption message (setTimers ts w) =
  (setTimers ts (fst (handleInterruption message w)),
   snd (handleInterruption message w)).
Proof.
  unfold handleInterruption. destruct (interrupted message); [|reflexivity].
  cbv [when bind gets].
  change (sourcesRef (setTimers ts w)) with (sourcesRef w).
  rewrite forEach_stop_setTimers.
  destruct (forEach (sourcesRef w) stop w) as [w' [[]|e|]]; reflexivity.
Qed.

Lemma beforeInterruption_turnComplete env message w :
  turnComplete message = true ->
  let w0 := beforeInterruption env (withoutTurnComplete message) w in
  beforeInterruption env message w =
    setTimers (timers w ++ [((timeMs env + 3000)%Z, ClearTranscription)]) w0
  /\ timers w0 = timers w
  /\ isConnected w0 = isConnected w.
Proof.
  intro H. unfold beforeInterruption.
  change (handleTranscription (withoutTurnComplete message))
    with (handleTranscription message).
  destruct (handleTranscription_normal message w) as [f ->]. cbn [fst].
  rewrite !handleTurnComplete_eq, H.
  change (turnComplete (withoutTurnComplete message)) with false. cbn [fst].
  rewrite !handleAudioOutput_eq. cbn [fst].
  change (playable (withoutTurnComplete message)) with (playable message).
  set (w2 := setTranscription f w).
  change (playable message (setTimers _ w2)) with (playable message w2).
  change (timers w2) with (timers w).
  destruct (playable message w2); [|repeat split].
  destruct (decodeAudioData env); repeat split.
Qed.

Lemma handleInterruption_timers message w :
  timers (fst (handleInterruption message w)) = timers w.
Proof.
  unfold handleInterruption. destruct (interrupted message); [|reflexivity].
  cbv [when bind gets].
  destruct (forEach_stop_any (sourcesRef w) w) as (ss & c & ->).
  destruct c; reflexivity.
Qed.

Lemma onmessage_turnComplete env message w :
  turnComplete message = true ->
  let w0 := fst (onmessage env (withoutTurnComplete message) w) in
  fst (onmessage env message w) =
    setTimers (timers w ++ [((timeMs env + 3000)%Z, ClearTranscription)]) w0
  /\ timers w0 = timers w
  /\ isConnected w0 = isConnected w.
Proof.
  intro H. rewrite !onmessage_blocks.
  destruct (beforeInterruption_turnComplete env message w H) as (-> & Ht & Hc).
  change (handleInterruption (withoutTurnComplete message))
    with (handleInterruption message).
  rewrite handleInterruption_setTimers. cbn [fst].
  split; [reflexivity|].
  split; [now rewrite handleInterruption_timers|].
  destruct (handleInterruption_any message
              (beforeInterruption env (withoutTurnComplete message) w))
    as (ss & _ & _ & ->).
  exact Hc.
Qed.

Lemma transcription_fire l w :
  transcription (fold_left (fun w' (t : Z * TimerCallback) => runCallback (snd t) w') l w) =
  match l with
  | [] => transcription w
  | _ :: _ => cleared
  end.
Proof.
  revert w. induction l as [|[due []] l IH]; intro w; simpl; [reflexivity|].
  rewrite IH. destruct l; reflexivity.
Qed.

Lemma transcription_runTimers now w :
  transcription (runTimers now w) =
  match filter (fun t => (fst t <=? now)%Z) (timers w) with
  | [] => transcription w
  | _ :: _ => cleared
  end.
Proof. unfold runTimers. rewrite transcription_fire. reflexivity. Qed.

(** C7. When the message handler receives a message with the turn-complete
    flag it leaves the connected flag as it was and registers one timeout,
    due 3000 ms later, that clears both transcript strings. Until that time
    the flag has no effect on the transcript: the strings are what they
    would be had the message come without the flag, and when no older
    timeout is pending they stay as the handler left them. Once 3000 ms have
    passed both strings are empty. *)
Theorem turnComplete_clears_after_delay env message w :
  turnComplete message = true ->
  let w1 := fst (onmessage env message w) in
  let w0 := fst (onmessage env (withoutTurnComplete message) w) in
  let due := (timeMs env + 3000)%Z in
  isConnected w1 = isConnected w
  /\ timers w1 = timers w ++ [(due, ClearTranscription)]
  /\ transcription w1 = transcription w0
  /\ (forall now, (now < due)%Z ->
      transcription (runTimers now w1) = transcription (runTimers now w0))
  /\ (Forall (fun t => (due <= fst t)%Z) (timers w) ->
      forall now, (now < due)%Z ->
      transcription (runTimers now w1) = transcription w1)
  /\ (forall now, (due <= now)%Z ->
      transcription (runTimers now w1) = cleared).
Proof.
  intro H. destruct (onmessage_turnComplete env message w H) as (E & Ht & Hc).
  cbv zeta. rewrite E. clear E.
  set (w0 := fst (onmessage env (withoutTurnComplete message) w)) in *.
  set (due := (timeMs env + 3000)%Z).
  split; [exact Hc|]. split; [reflexivity|]. split; [reflexivity|].
  assert (F : forall now,
             filter (fun t => (fst t <=? now)%Z)
                    (timers w ++ [(due, ClearTranscription)]) =
             filter (fun t => (fst t <=? now)%Z) (timers w)
             ++ (if (due <=? now)%Z then [(due, ClearTranscription)] else []))
    by (intro now; rewrite filter_app; reflexivity).
  split; [|split].
  - intros now L. rewrite !transcription_runTimers. simpl. rewrite F, Ht.
    replace (due <=? now)%Z with false by (symmetry; apply Z.leb_gt; exact L).
    now rewrite app_nil_r.
  - intros P now L. rewrite transcription_runTimers. simpl. rewrite F.
    replace (due <=? now)%Z with false by (symmetry; apply Z.leb_gt; exact L).
    rewrite app_nil_r.
    replace (filter (fun t => (fst t <=? now)%Z) (timers w)) with (@nil (Z * TimerCallback));
      [reflexivity|].
    symmetry. clear - P L. induction P as [|t l Pt P IH]; simpl; [reflexivity|].
    replace (fst t <=? now)%Z with false by (symmetry; apply Z.leb_gt; lia).
    exact IH.
  - intros now L. rewrite transcription_runTimers. simpl. rewrite F.
    replace (due <=? now)%Z with true by (symmetry; apply Z.leb_le; exact L).
    destruct (filter _ (timers w)); reflexivity.
Qed.

Lemma turnComplete_clears_after_delay_witness :
  let w1 := fst (onmessage (reading 0 1) turnCompleteMessage sessionOpen) in
  turnComplete turnCompleteMessage = true
  /\ isConnected w1 = true
  /\ transcription (runTimers 2999 w1) = {| user := []; model := js "Bonjour" |}
  /\ transcription (runTimers 3000 w1) = cleared.
Proof.
  destruct (turnComplete_clears_after_delay (reading 0 1) turnCompleteMessage
              sessionOpen eq_refl) as (Hc & _ & _ & _ & Hb & Ha).
  split; [reflexivity|]. split; [exact Hc|]. split.
  - apply (Hb (Forall_nil _) 2999%Z). reflexivity.
  - apply (Ha 3000%Z). discriminate.
Defined.

End LiveConversationFacts.

(** ** The video panel *)

Section VeoAnimatorFacts.

Import VeoAnimator.

Ltac veo_unfold :=
  cbv [bind ret gets modify throw call await tryCatch tryFinally when whenSome
       setFile setPrompt setVideoUrl setIsLoading setStatus setError record
       appendCalls
       file prompt videoUrl isLoading status error calls].

Lemma veo_appendCalls_app cs1 cs2 w :
  appendCalls cs2 (appendCalls cs1 w) = appendCalls (cs1 ++ cs2) w.
Proof. unfold appendCalls; simpl. now rewrite app_assoc. Qed.

Lemma veo_appendCalls_nil w : appendCalls [] w = w.
Proof. destruct w; unfold appendCalls; simpl. now rewrite app_nil_r. Qed.

Lemma record_eq c w : record c w = (appendCalls [c] w, Normal tt).
Proof. reflexivity. Qed.

Lemma poll_done reports operation w :
  done operation = true -> poll reports operation w = (w, Normal operation).
Proof. intro H. destruct reports; simpl; rewrite H; reflexivity. Qed.

(** A job that answers [pendings] and then [finished]. *)
Lemma poll_settles pendings finished rest operation w :
  Forall (fun op => done op = false) (operation :: pendings) ->
  done finished = true ->
  poll (map (@Fulfilled _) pendings ++ Fulfilled finished :: rest) operation w =
  (appendCalls (pollCalls (operation :: pendings)) w, Normal finished).
Proof.
  revert operation w.
  induction pendings as [|p pendings IH]; intros operation w H Hf;
    inversion H as [|x l H0 Hp]; subst.
  - simpl. rewrite H0. cbv [bind await]. rewrite !record_eq, veo_appendCalls_app.
    simpl. now apply poll_done.
  - simpl. rewrite H0. cbv [bind await]. rewrite !record_eq, veo_appendCalls_app.
    rewrite (IH p _ Hp Hf), veo_appendCalls_app. reflexivity.
Qed.

Lemma statusFetches_pollCalls ops : statusFetches (pollCalls ops) = List.length ops.
Proof.
  induction ops as [|op ops IH]; [reflexivity|].
  unfold statusFetches, pollCalls in *. simpl. now rewrite IH.
Qed.

Lemma statusFetches_app l l' :
  statusFetches (l ++ l') = (statusFetches l + statusFetches l')%nat.
Proof. unfold statusFetches. now rewrite filter_app, length_app. Qed.

(** C5. When the key check, the upload and the submission succeed, the
    submitted operation is not yet done, the job answers [k] status fetches
    with done=false and the next with done=true, no error and a result URI,
    and the download of that URI succeeds, then the panel issues exactly
    [k + 1] status fetches, each after a wait of 5000 ms, and settles with
    the video URL made from the download of that URI, no error, the loading
    flag off and the status empty. This holds for every [k]: nothing bounds
    the number of polls. *)
Theorem polling_fetches_until_done
  env w f k pendings finished rest operation base64Data link response videoBlob :
  file w = Some f ->
  keyReady env ->
  newGoogleGenAI env = Returns tt ->
  blobToBase64 env = Fulfilled base64Data ->
  generateVideos env = Fulfilled operation ->
  getVideosOperation env = map (@Fulfilled _) pendings ++ Fulfilled finished :: rest ->
  Forall (fun op => done op = false) (operation :: pendings) ->
  List.length pendings = k ->
  done finished = true ->
  operationError finished = None ->
  uri finished = Some link ->
  truthy link = true ->
  fetch env (link ++ js "&key=" ++ interpolate (API_KEY env)) = Fulfilled response ->
  blob env response = Fulfilled videoBlob ->
  exists w',
    handleGenerate env w = (w', Normal tt)
    /\ videoUrl w' = Some (createObjectURL env videoBlob)
    /\ error w' = None
    /\ isLoading w' = false
    /\ status w' = []
    /\ calls w' =
       calls w ++ submissionCalls env f (prompt w) base64Data
       ++ pollCalls (operation :: pendings)
       ++ [Fetch (link ++ js "&key=" ++ interpolate (API_KEY env));
           CreateObjectURL videoBlob]
    /\ statusFetches (skipn (List.length (calls w)) (calls w')) = (k + 1)%nat.
Proof.
  intros Hf Hk Hai Hb Hg Hr Hp Hlen Hd He Hu Ht Hfetch Hblob.
  destruct w as [fi pr vu il st er ca]. simpl in Hf. subst fi.
  unfold handleGenerate, submissionCalls.
  destruct Hk as [Hk|[Hk Ho]];
    repeat (veo_unfold; cbv [negb orElse];
            rewrite ?Hk, ?Ho, ?Hai, ?Hb, ?Hg, ?Hr, ?(poll_settles _ _ _ Hp Hd),
                    ?He, ?Hu, ?Ht, ?Hfetch, ?Hblob);
    (eexists; split; [reflexivity|]);
    (split; [reflexivity|]); (split; [reflexivity|]);
    (split; [reflexivity|]); (split; [reflexivity|]);
    (split; [simpl; repeat rewrite <- app_assoc; reflexivity|]);
    repeat rewrite <- app_assoc;
    rewrite skipn_length_app, !statusFetches_app, statusFetches_pollCalls;
    cbn [List.length]; rewrite Hlen; cbv [statusFetches filter isStatusFetch app];
    cbn [List.length]; lia.
Qed.

Lemma polling_fetches_until_done_witness :
  let env := service [Fulfilled pendingOperation; Fulfilled pendingOperation;
                      Fulfilled finishedOperation] in
  exists w',
    handleGenerate env ready = (w', Normal tt)
    /\ videoUrl w' = Some (js "blob:local")
    /\ isLoading w' = false
    /\ statusFetches (calls w') = 3%nat.
Proof.
  intro env.
  destruct (@polling_fetches_until_done env ready picture 2
              [pendingOperation; pendingOperation] finishedOperation []
              pendingOperation (js "iVBORw0KGgo=")
              (js "https://video.example/v1?alt=media") 1%nat 2%nat)
    as (w' & E & Hv & _ & Hl & _ & _ & Hn);
    try reflexivity.
  - left. reflexivity.
  - repeat constructor.
  - exists w'. repeat split; assumption.
Defined.

Lemma poll_reaches env operation finished :
  reaches env operation finished ->
  exists cs, forall w,
    poll (getVideosOperation env) operation w = (appendCalls cs w, Normal finished).
Proof.
  intros [[Hd ->]|(pendings & rest & -> & Hp & Hd)].
  - exists []. intro w. rewrite veo_appendCalls_nil. now apply poll_done.
  - eexists. intro w. now apply poll_settles.
Qed.

(** C6, as amended. When the job ends with an error payload, the panel
    settles with a failure message: the remote message itself, unless that
    message is missing or empty, in which case the panel shows
    "Unknown generation error", or contains "Requested entity was not
    found", in which case the panel shows its own session-expired text. No
    video is set, the loading flag is off and the status is empty. *)
Theorem remote_error_surfaced env w f operation finished base64Data message :
  file w = Some f ->
  keyReady env ->
  newGoogleGenAI env = Returns tt ->
  blobToBase64 env = Fulfilled base64Data ->
  generateVideos env = Fulfilled operation ->
  reaches env operation finished ->
  operationError finished = Some message ->
  exists w',
    handleGenerate env w = (w', Normal tt)
    /\ error w' = Some (surfaced message)
    /\ (forall m, message = Some m -> truthy m = true ->
        includes m (js "Requested entity was not found") = false ->
        error w' = Some m)
    /\ videoUrl w' = videoUrl w
    /\ isLoading w' = false
    /\ status w' = [].
Proof.
  intros Hf Hk Hai Hb Hg Hr He.
  destruct (poll_reaches Hr) as [cs Hpoll].
  destruct w as [fi pr vu il st er ca]. simpl in Hf. subst fi.
  assert (T : truthy (orElse message (js "Unknown generation error")) = true)
    by (now apply orElse_truthy).
  set (thrown := orElse message (js "Unknown generation error")) in *.
  assert (V : forall m, message = Some m -> truthy m = true ->
              includes m (js "Requested entity was not found") = false ->
              surfaced message = m).
  { intros m -> Hm Hi. unfold surfaced, orElse. now rewrite Hm, Hi. }
  assert (S : surfaced message =
              if includes thrown (js "Requested entity was not found")
              then js "Session expired or key invalid. Please try again to select a key."
              else thrown) by reflexivity.
  unfold handleGenerate.
  destruct Hk as [Hk|[Hk Ho]];
    repeat (veo_unfold; cbv [negb messageOf newError];
            rewrite ?Hk, ?Ho, ?Hai, ?Hb, ?Hg, ?Hpoll, ?He);
    fold thrown; rewrite !(orElse_Some_truthy _ _ T), T; cbv [andb];
    destruct (includes thrown (js "Requested entity was not found"));
    (eexists; split; [reflexivity|]);
    (split; [cbv [error]; now rewrite S|]);
    (split; [intros m H1 H2 H3; cbv [error]; now rewrite <- (V m H1 H2 H3), S|]);
    repeat split.
Qed.

Lemma remote_error_surfaced_witness :
  let env := service [Fulfilled (failedOperation (js "Quota exceeded."))] in
  exists w',
    handleGenerate env ready = (w', Normal tt)
    /\ error w' = Some (js "Quota exceeded.")
    /\ isLoading w' = false.
Proof.
  intro env.
  destruct (@remote_error_surfaced env ready picture pendingOperation
              (failedOperation (js "Quota exceeded.")) (js "iVBORw0KGgo=")
              (Some (js "Quota exceeded.")))
    as (w' & E & _ & Hm & _ & Hl & _);
    try reflexivity.
  - left. reflexivity.
  - right. exists [], []. repeat split; repeat constructor.
  - exists w'. repeat split; try assumption.
    apply (Hm (js "Quota exceeded.")); reflexivity.
Defined.

(** C6 as stated fails: a job that ends with the error message
    "Requested entity was not found." leaves the panel showing its own
    session-expired text, and a job that ends with an empty error message
    leaves it showing "Unknown generation error". *)
Lemma not_found_error_is_replaced :
  let message := js "Requested entity was not found." in
  let w' := fst (handleGenerate (service [Fulfilled (failedOperation message)]) ready) in
  let w'' := fst (handleGenerate (service [Fulfilled (failedOperation [])]) ready) in
  error w' = Some (js "Session expired or key invalid. Please try again to select a key.")
  /\ error w' <> Some message
  /\ error w'' = Some (js "Unknown generation error")
  /\ error w'' <> Some [].
Proof.
  vm_compute. repeat split; discriminate.
Qed.

Lemma handleGenerate_file env w f :
  file w = Some f ->
  exists body w0,
    handleGenerate env w =
    tryFinally body (modify (setIsLoading false) ;; modify (setStatus [])) w0
    /\ file w0 = Some f.
Proof.
  intro H. destruct w as [fi pr vu il st er ca]. simpl in H. subst fi.
  unfold handleGenerate. do 2 eexists. split; reflexivity.
Qed.

Lemma handleGenerate_settled env w w' c f :
  file w = Some f ->
  handleGenerate env w = (w', c) ->
  c <> Pending ->
  isLoading w' = false /\ status w' = [].
Proof.
  intros Hf H Hc.
  destruct (handleGenerate_file env w Hf) as (body & w0 & E & _).
  rewrite E in H. apply tryFinally_settled in H as [s0 ->]; [|exact Hc].
  split; reflexivity.
Qed.

Lemma handleGenerate_no_file env w :
  file w = None -> handleGenerate env w = (w, Normal tt).
Proof.
  intro H. destruct w as [fi pr vu il st er ca]. simpl in H. subst fi. reflexivity.
Qed.

Lemma keepsFile_ret {A} (a : A) : keepsFile (ret a).
Proof. intro s. reflexivity. Qed.

Lemma keepsFile_throw {A} e : keepsFile (@throw World A e).
Proof. intro s. reflexivity. Qed.

Lemma keepsFile_gets {A} (f : World -> A) : keepsFile (gets f).
Proof. intro s. reflexivity. Qed.

Lemma keepsFile_call {A} (r : Result A) : keepsFile (call r).
Proof. intro s. destruct r; reflexivity. Qed.

Lemma keepsFile_await {A} (p : Promise A) : keepsFile (await p).
Proof. intro s. destruct p; reflexivity. Qed.

Lemma keepsFile_modify f :
  (forall s, file (f s) = file s) -> keepsFile (modify f).
Proof. intros H s. apply H. Qed.

Lemma keepsFile_record c : keepsFile (record c).
Proof. intro s. reflexivity. Qed.

Lemma keepsFile_bind {A B} (c : JS World A) (k : A -> JS World B) :
  keepsFile c -> (forall a, keepsFile (k a)) -> keepsFile (bind c k).
Proof.
  intros Hc Hk s. cbv [bind]. specialize (Hc s).
  destruct (c s) as [s' [a|e|]]; cbn [fst] in *; [|exact Hc..].
  now rewrite Hk.
Qed.

Lemma keepsFile_tryCatch {A} (body : JS World A) handler :
  keepsFile body -> (forall e, keepsFile (handler e)) -> keepsFile (tryCatch body handler).
Proof.
  intros Hb Hh s. cbv [tryCatch]. specialize (Hb s).
  destruct (body s) as [s' [a|e|]]; cbn [fst] in *; [exact Hb| |exact Hb].
  now rewrite Hh.
Qed.

Lemma keepsFile_tryFinally {A} (body : JS World A) fin :
  keepsFile body -> keepsFile fin -> keepsFile (tryFinally body fin).
Proof.
  intros Hb Hf s. cbv [tryFinally]. specialize (Hb s).
  destruct (body s) as [s' [a|e|]]; cbn [fst] in *; [| |exact Hb];
    specialize (Hf s'); destruct (fin s') as [s'' [[]|e'|]]; cbn [fst] in *;
    congruence.
Qed.

Lemma keepsFile_when b c : keepsFile c -> keepsFile (when b c).
Proof. intros H. destruct b; [exact H | apply keepsFile_ret]. Qed.

Lemma keepsFile_poll reports operation : keepsFile (poll reports operation).
Proof.
  revert operation. induction reports as [|r reports IH]; intro operation; simpl;
    destruct (done operation); try apply keepsFile_ret;
    (apply keepsFile_bind; [apply keepsFile_record|intro]);
    (apply keepsFile_bind; [apply keepsFile_record|intro]);
    [apply keepsFile_await|].
  apply keepsFile_bind; [apply keepsFile_await | intro; apply IH].
Qed.

Ltac keepsFile :=
  repeat lazymatch goal with
    | |- keepsFile (bind _ _) => apply keepsFile_bind; [|intro]
    | |- keepsFile (ret _) => apply keepsFile_ret
    | |- keepsFile (throw _) => apply keepsFile_throw
    | |- keepsFile (gets _) => apply keepsFile_gets
    | |- keepsFile (call _) => apply keepsFile_call
    | |- keepsFile (await _) => apply keepsFile_await
    | |- keepsFile (record _) => apply keepsFile_record
    | |- keepsFile (poll _ _) => apply keepsFile_poll
    | |- keepsFile (modify _) => apply keepsFile_modify; intros []; reflexivity
    | |- keepsFile (when _ _) => apply keepsFile_when
    | |- keepsFile (tryFinally _ _) => apply keepsFile_tryFinally
    | |- keepsFile (tryCatch _ _) => apply keepsFile_tryCatch; [|intro]
    | |- keepsFile (match ?x with _ => _ end) => destruct x
    end.

Lemma handleGenerate_keepsFile env : keepsFile (handleGenerate env).
Proof. unfold handleGenerate. keepsFile. Qed.

Lemma Idle_initial : Idle initial.
Proof. intros _. split; reflexivity. Qed.

Lemma Idle_handle ev w : Idle w -> Idle (handle ev w).
Proof.
  intro I. destruct ev as [[[|f fs]|]|value|env]; simpl; try exact I.
  - intro H. discriminate.
  - intro H. rewrite handleGenerate_keepsFile in H.
    rewrite (handleGenerate_no_file env w H). exact (I H).
Qed.

Lemma Idle_run evs w : Idle w -> Idle (run evs w).
Proof.
  revert w. induction evs as [|ev evs IH]; intros w I; simpl; [exact I|].
  apply IH, Idle_handle, I.
Qed.

(** C9. In any state the panel can reach, whenever the generate operation
    settles, normally or with an exception, the loading flag is false and
    the status string is empty afterwards. *)
Theorem generate_settles_idle env w w' c :
  reachable w ->
  handleGenerate env w = (w', c) ->
  c <> Pending ->
  isLoading w' = false /\ status w' = [].
Proof.
  intros [evs ->] H Hc.
  pose proof (Idle_run evs Idle_initial) as I.
  destruct (file (run evs initial)) as [f|] eqn:Hf.
  - exact (handleGenerate_settled env _ Hf H Hc).
  - rewrite (handleGenerate_no_file env _ Hf) in H.
    injection H as <- _. exact (I Hf).
Qed.

Lemma generate_settles_idle_witness :
  let env := service [Fulfilled (failedOperation (js "Quota exceeded."))] in
  reachable ready
  /\ isLoading (fst (handleGenerate env ready)) = false
  /\ status (fst (handleGenerate env ready)) = [].
Proof.
  intro env.
  assert (R : reachable ready)
    by (exists [FileChange (Some [picture])]; vm_compute; reflexivity).
  split; [exact R|].
  apply (@generate_settles_idle env ready (fst (handleGenerate env ready))
           (snd (handleGenerate env ready)) R).
  - apply surjective_pairing.
  - vm_compute. discriminate.
Defined.

End VeoAnimatorFacts.

(** ** The image panel *)

Section ImageEditorFacts.

Import ImageEditor.

(** C8. For any remote response without an inline-image part (no parts at
    all, or parts none of which carries inline data), the edit operation of
    the image panel completes without an exception, with the loading flag
    off and the result image null, and raises no alert: the only calls it
    makes are the upload, the request and, when the panel showed no image
    before, a console warning. *)
Theorem edit_without_image_settles_empty env w f base64Data response :
  file w = Some f ->
  truthy (prompt w) = true ->
  newGoogleGenAI env = Returns tt ->
  blobToBase64 env = Fulfilled base64Data ->
  generateContent env = Fulfilled response ->
  match parts response with
  | Some parts => existsb hasInlineData parts = false
  | None => True
  end ->
  exists w',
    handleEdit env w = (w', Normal tt)
    /\ loading w' = false
    /\ resultImage w' = None
    /\ calls w' =
       calls w ++ [BlobToBase64 f; GenerateContent base64Data (type f) (prompt w)]
       ++ (if truthy (orElse (resultImage w) []) then []
           else [ConsoleWarn (js "No image returned")]).
Proof.
  intros Hf Hp Hai Hb Hg Hparts.
  destruct w as [fi pr ri lo ca]. simpl in Hf, Hp. subst fi.
  unfold handleEdit.
  cbv [bind ret gets modify throw call await tryCatch tryFinally when whenSome
       setFile setPrompt setResultImage setLoading record
       file prompt resultImage loading calls].
  rewrite Hp, Hai, Hb, Hg.
  destruct response as [[ps|]]; simpl in Hparts.
  - cbv [parts]. rewrite (find_none_existsb _ _ Hparts), Hparts.
    destruct (truthy (orElse ri [])); cbv [negb andb];
      (eexists; split; [reflexivity|]); repeat split;
      cbv [calls]; repeat rewrite <- app_assoc; reflexivity.
  - cbv [parts].
    destruct (truthy (orElse ri [])); cbv [negb andb];
      (eexists; split; [reflexivity|]); repeat split;
      cbv [calls]; repeat rewrite <- app_assoc; reflexivity.
Qed.

Lemma edit_without_image_settles_empty_witness :
  exists w',
    handleEdit textOnly ready = (w', Normal tt)
    /\ loading w' = false
    /\ resultImage w' = None
    /\ calls w' =
       [BlobToBase64 picture;
        GenerateContent (js "iVBORw0KGgo=") (js "image/png") (js "Make it rain");
        ConsoleWarn (js "No image returned")].
Proof.
  destruct (@edit_without_image_settles_empty textOnly ready picture
              (js "iVBORw0KGgo=")
              {| parts := Some [{| inlineData := None; text := Some (js "I cannot") |}] |})
    as (w' & E & Hl & Hr & Hc); try reflexivity.
  exists w'. repeat split; assumption.
Defined.

End ImageEditorFacts.

(** ** Guards of the submit operations *)

Section Guards.

(** C10. While its required inputs are missing, the submit operation of each
    media panel returns at once, normally, leaves every state variable of
    the panel as it was and issues no remote call: the video panel with no
    file selected, the image panel with no file or an empty prompt, the
    search panel with a query that is empty or consists of white space only
    (there the only call made is [preventDefault] on the form event). *)
Theorem submit_without_inputs_is_noop :
  (forall env w,
     VeoAnimator.file w = None ->
     VeoAnimator.handleGenerate env w = (w, Normal tt))
  /\ (forall env w,
        ImageEditor.file w = None \/ ImageEditor.prompt w = [] ->
        ImageEditor.handleEdit env w = (w, Normal tt))
  /\ (forall env w,
        forallb isWhiteSpace (SearchQuery.query w) = true ->
        exists w',
          SearchQuery.handleSearch env w = (w', Normal tt)
          /\ SearchQuery.query w' = SearchQuery.query w
          /\ SearchQuery.response w' = SearchQuery.response w
          /\ SearchQuery.groundingChunks w' = SearchQuery.groundingChunks w
          /\ SearchQuery.loading w' = SearchQuery.loading w
          /\ SearchQuery.calls w' = SearchQuery.calls w ++ [SearchQuery.PreventDefault]
          /\ existsb SearchQuery.isRemote
               (skipn (List.length (SearchQuery.calls w)) (SearchQuery.calls w')) = false).
Proof.
  split; [|split].
  - intros env [fi pr vu il st er ca] H. simpl in H. subst fi. reflexivity.
  - intros env [fi pr ri lo ca] [H|H]; simpl in H; subst.
    + reflexivity.
    + destruct fi; reflexivity.
  - intros env [q r g l ca] H. simpl in H.
    unfold SearchQuery.handleSearch.
    cbv [bind ret gets modify SearchQuery.record SearchQuery.query
         SearchQuery.response SearchQuery.groundingChunks SearchQuery.loading
         SearchQuery.calls].
    rewrite (trim_whitespace _ H). cbv [truthy].
    eexists. split; [reflexivity|]. repeat split.
    cbv [SearchQuery.calls]. rewrite skipn_length_app. reflexivity.
Qed.

Lemma submit_without_inputs_is_noop_witness :
  VeoAnimator.handleGenerate (VeoAnimator.service []) VeoAnimator.initial =
    (VeoAnimator.initial, Normal tt)
  /\ ImageEditor.handleEdit ImageEditor.textOnly ImageEditor.initial =
       (ImageEditor.initial, Normal tt)
  /\ SearchQuery.response
       (fst (SearchQuery.handleSearch SearchQuery.offline
               (SearchQuery.setQuery [32%N; 9%N; 160%N] SearchQuery.initial))) = [].
Proof.
  destruct submit_without_inputs_is_noop as (V & I & S).
  split; [apply V; reflexivity|]. split; [apply I; left; reflexivity|].
  destruct (S SearchQuery.offline
              (SearchQuery.setQuery [32%N; 9%N; 160%N] SearchQuery.initial) eq_refl)
    as (w' & E & _ & Hr & _).
  rewrite E. exact Hr.
Defined.

End Guards.

(** ** The live session controller: start, frame and bookkeeping *)

Section LiveConversationMore.

Import LiveConversation.

Ltac live_cbv :=
  cbv [bind ret gets modify throw call await tryCatch tryFinally when whenSome
       setIsConnected setError setTranscription setInputAudioContextRef
       setOutputAudioContextRef setMediaStreamRef setSessionRef setSourcesRef
       setNextStartTimeRef setTimers record allocate appendCalls
       fresh close trackStop setTimeout
       isConnected error transcription inputAudioContextRef
       outputAudioContextRef mediaStreamRef sessionRef sourcesRef
       nextStartTimeRef timers calls nextObject].

(** X1. A start in which the browser grants everything completes normally,
    clears the error, stores two new contexts, the stream and the session
    handle under fresh identities, and touches nothing else: the connected
    flag waits for [onopen], and whatever the refs held before is
    overwritten without a close or stop call; the cursor and the playback
    set are not reset. *)
Theorem startSession_granted env w n :
  newGoogleGenAI env = Returns tt ->
  newInputAudioContext env = Returns tt ->
  newOutputAudioContext env = Returns tt ->
  getUserMedia env = Fulfilled n ->
  exists w',
    startSession env w = (w', Normal tt)
    /\ error w' = None
    /\ isConnected w' = isConnected w
    /\ inputAudioContextRef w' = Some (nextObject w)
    /\ outputAudioContextRef w' = Some (1 + nextObject w)%nat
    /\ mediaStreamRef w' = Some (seq (2 + nextObject w) n)
    /\ sessionRef w' = Some (n + (2 + nextObject w))%nat
    /\ calls w' = calls w
    /\ sourcesRef w' = sourcesRef w
    /\ nextStartTimeRef w' = nextStartTimeRef w.
Proof.
  intros H1 H2 H3 H4.
  destruct w as [c e tr ic oc ms se so ns ti ca no].
  unfold startSession.
  repeat (live_cbv; rewrite ?H1, ?H2, ?H3, ?H4).
  eexists. split; [reflexivity|]. repeat split.
Qed.

Lemma startSession_granted_witness :
  exists w',
    startSession granted sessionPlaying = (w', Normal tt)
    /\ inputAudioContextRef w' = Some 5%nat
    /\ sourcesRef w' = [4%nat]
    /\ calls w' = calls sessionPlaying.
Proof.
  destruct (@startSession_granted granted sessionPlaying 1%nat
              eq_refl eq_refl eq_refl eq_refl)
    as (w' & E & _ & _ & Hi & _ & _ & _ & Hc & Hs & _).
  exists w'. repeat split; assumption.
Defined.

(** X2. When a start fails with a thrown value that has a [message]
    property (a constructor throws, or the microphone request is rejected),
    [startSession] still completes normally: the error shown is that message
    or, when it is missing or empty, "Failed to start session"; the teardown
    has run, so the four handles are null, the connected flag is off and the
    cursor is zero; and each audio context created by the failed attempt has
    been closed. *)
Theorem startSession_failure_tears_down env w m :
  failsWith env (ThrownValue m) ->
  exists w',
    startSession env w = (w', Normal tt)
    /\ error w' = Some (orElse m (js "Failed to start session"))
    /\ isConnected w' = false
    /\ inputAudioContextRef w' = None
    /\ outputAudioContextRef w' = None
    /\ mediaStreamRef w' = None
    /\ sessionRef w' = None
    /\ nextStartTimeRef w' = 0%Q
    /\ (newGoogleGenAI env = Returns tt -> newInputAudioContext env = Returns tt ->
        In (ContextClose (nextObject w)) (calls w'))
    /\ (newGoogleGenAI env = Returns tt -> newInputAudioContext env = Returns tt ->
        newOutputAudioContext env = Returns tt ->
        In (ContextClose (1 + nextObject w)%nat) (calls w')).
Proof.
  intros F.
  destruct w as [c e tr ic oc ms se so ns ti ca no].
  unfold startSession.
  destruct F as [H1|[[H1 H2]|[(H1 & H2 & H3)|(H1 & H2 & H3 & H4)]]];
    repeat (live_cbv; cbv [messageOf]; rewrite ?H1, ?H2, ?H3, ?H4);
    rewrite cleanup_eq;
    (eexists; split; [reflexivity|]);
    unfold cleaned, cleanupCalls; cbn [error isConnected inputAudioContextRef
      outputAudioContextRef mediaStreamRef sessionRef nextStartTimeRef calls sourcesRef];
    repeat (split; [reflexivity|]).
  - split; intros; congruence.
  - split; intros; congruence.
  - split; [|intros; congruence].
    intros _ _. apply in_or_app. right. apply in_or_app. right.
    apply in_or_app. left. now left.
  - split; intros; apply in_or_app; right; apply in_or_app; right.
    + apply in_or_app. left. now left.
    + apply in_or_app. right. apply in_or_app. right. now left.
Qed.

Lemma startSession_failure_tears_down_witness :
  exists w',
    startSession denied initial = (w', Normal tt)
    /\ error w' = Some (js "Permission denied")
    /\ calls w' = [ContextClose 0; ContextClose 1].
Proof.
  destruct (@startSession_failure_tears_down denied initial
              (Some (js "Permission denied")))
    as (w' & E & He & _).
  - right. right. right. repeat split.
  - exists w'. split; [exact E|]. split; [exact He|].
    replace w' with (fst (startSession denied initial)) by (now rewrite E).
    vm_compute. reflexivity.
Defined.

Lemma forEach_stop_outcome sources w :
  forEach sources stop w = (appendCalls (map SourceStop sources) w, Normal tt)
  \/ exists ss e, forEach sources stop w = (appendCalls (map SourceStop ss) w, Abrupt e).
Proof.
  revert w. induction sources as [|x sources IH]; intro w; simpl.
  - left. now rewrite appendCalls_nil.
  - cbv [bind].
    assert (S : stop x w = (appendCalls [SourceStop x] w, Normal tt)
                \/ stop x w = (w, Abrupt InvalidStateError))
      by (unfold stop; destruct (started x (calls w)); auto).
    destruct S as [->| ->].
    + destruct (IH (appendCalls [SourceStop x] w)) as [->|(ss & e & ->)].
      * left. now rewrite appendCalls_app.
      * right. exists (x :: ss), e. now rewrite appendCalls_app.
    + right. exists [], InvalidStateError. now rewrite appendCalls_nil.
Qed.

Lemma handleInterruption_cases message w :
  (interrupted message = false /\ handleInterruption message w = (w, Normal tt))
  \/ (interrupted message = true
      /\ handleInterruption message w = (flushed w, Normal tt))
  \/ (interrupted message = true
      /\ exists ss e,
           handleInterruption message w =
           (appendCalls (map SourceStop ss) w, Abrupt e)).
Proof.
  unfold handleInterruption. destruct (interrupted message); [|now left].
  right. cbv [when bind gets].
  destruct (forEach_stop_outcome (sourcesRef w) w) as [->|(ss & e & ->)].
  - left. split; [reflexivity|]. destruct w; reflexivity.
  - right. split; [reflexivity|]. now exists ss, e.
Qed.

Lemma beforeInterruption_frame env message w :
  let w3 := beforeInterruption env message w in
  isConnected w3 = isConnected w
  /\ error w3 = error w
  /\ inputAudioContextRef w3 = inputAudioContextRef w
  /\ outputAudioContextRef w3 = outputAudioContextRef w
  /\ mediaStreamRef w3 = mediaStreamRef w
  /\ sessionRef w3 = sessionRef w
  /\ transcription w3 =
     {| user := user (transcription w) ++ inputText message;
        model := model (transcription w) ++ outputText message |}.
Proof.
  destruct w as [c e [u mo] ic [octx|] ms se so ns ti ca no],
           message as [[ot|] [it|] [|] [[|a0 a]|] ir], env as [now ms' [d|ex]];
    cbv [beforeInterruption inputText outputText playable
         handleTranscription handleTurnComplete handleAudioOutput truthy];
    live_cbv; cbv [fst user model outputTranscription inputTranscription];
    rewrite ?app_nil_r; repeat split.
Qed.

(** X3. Whatever the message and the state, and even when it ends with an
    exception, the message handler leaves the connected flag, the error text,
    the microphone stream, both audio contexts and the session handle as
    they were. *)
Theorem onmessage_keeps_connection env message w :
  let w' := fst (onmessage env message w) in
  isConnected w' = isConnected w
  /\ error w' = error w
  /\ inputAudioContextRef w' = inputAudioContextRef w
  /\ outputAudioContextRef w' = outputAudioContextRef w
  /\ mediaStreamRef w' = mediaStreamRef w
  /\ sessionRef w' = sessionRef w.
Proof.
  cbv zeta. rewrite onmessage_blocks.
  destruct (beforeInterruption_frame env message w) as (H1 & H2 & H3 & H4 & H5 & H6 & _).
  destruct (handleInterruption_cases message (beforeInterruption env message w))
    as [[_ ->]|[[_ ->]|[_ (ss & e & ->)]]]; cbn [fst];
    rewrite <- H1, <- H2, <- H3, <- H4, <- H5, <- H6; repeat split.
Qed.

(** X4. A payload that fails to decode is dropped and the session goes on:
    for a message with a non-empty payload and no interrupted flag, handled
    while a playback context is present, a decoding exception leaves the
    handler completing normally, starts no source, leaves the playback set
    as it was and only moves the cursor up to the playback clock. *)
Theorem decode_failure_drops_payload env message w base64Audio ctx e :
  inlineAudio message = Some base64Audio ->
  truthy base64Audio = true ->
  outputAudioContextRef w = Some ctx ->
  decodeAudioData env = Throws e ->
  interrupted message = false ->
  exists w',
    onmessage env message w = (w', Normal tt)
    /\ calls w' = calls w
    /\ sourcesRef w' = sourcesRef w
    /\ nextObject w' = nextObject w
    /\ nextStartTimeRef w' = Qmax (nextStartTimeRef w) (currentTime env).
Proof.
  intros Ha Ht Hc Hd Hi.
  rewrite onmessage_blocks, (handleInterruption_skip _ _ Hi).
  eexists. split; [reflexivity|].
  unfold beforeInterruption.
  destruct (handleTranscription_normal message w) as [f ->]. cbn [fst].
  rewrite handleTurnComplete_eq. cbn [fst].
  rewrite handleAudioOutput_eq, Hd. cbn [fst].
  set (w2 := if turnComplete message then _ else _).
  assert (P : playable message w2 = true).
  { unfold playable. rewrite Ha.
    replace (outputAudioContextRef w2) with (outputAudioContextRef w)
      by (subst w2; destruct (turnComplete message); reflexivity).
    now rewrite Hc. }
  rewrite P. subst w2. destruct (turnComplete message); repeat split.
Qed.

Lemma decode_failure_drops_payload_witness :
  exists w',
    onmessage (garbled 3) (audioMessage false) sessionOpen = (w', Normal tt)
    /\ calls w' = []
    /\ sourcesRef w' = []
    /\ nextStartTimeRef w' = Qmax 0 3.
Proof.
  destruct (@decode_failure_drops_payload (garbled 3) (audioMessage false) sessionOpen
              (js "AAAA") 1%nat (newError (js "bad PCM"))
              eq_refl eq_refl eq_refl eq_refl eq_refl)
    as (w' & E & Hc & Hs & _ & Hn).
  exists w'. repeat split; assumption.
Defined.

Lemma onmessage_transcription env message w :
  interrupted message = false ->
  transcription (fst (onmessage env message w)) =
  {| user := user (transcription w) ++ inputText message;
     model := model (transcription w) ++ outputText message |}.
Proof.
  intro Hi. rewrite onmessage_blocks, (handleInterruption_skip _ _ Hi).
  apply beforeInterruption_frame.
Qed.

(** X5. Transcripts accumulate: after any sequence of messages none of which
    carries the interrupted flag (and with no timeout firing in between),
    the user string is the old one followed by the input texts of the
    messages in order, and the model string the old one followed by their
    output texts. *)
Theorem transcripts_accumulate msgs w :
  Forall (fun em => interrupted (snd em) = false) msgs ->
  transcription (handleAll msgs w) =
  {| user := user (transcription w) ++ List.concat (map (fun em => inputText (snd em)) msgs);
     model := model (transcription w) ++ List.concat (map (fun em => outputText (snd em)) msgs) |}.
Proof.
  revert w. induction msgs as [|[env message] msgs IH]; intros w H; simpl.
  - rewrite !app_nil_r. now destruct (transcription w).
  - inversion H as [|x l Hi Hrest]; subst. simpl in Hi.
    unfold handleAll in *. rewrite (IH _ Hrest).
    rewrite (@onmessage_transcription env message w Hi). simpl.
    now rewrite !app_assoc.
Qed.

Lemma transcripts_accumulate_witness :
  model (transcription
           (handleAll [(pageTime 0, textMessage (js "Bon") false);
                       (pageTime 5, textMessage (js "jour") false)] sessionOpen))
  = js "Bonjour".
Proof.
  rewrite transcripts_accumulate by (repeat constructor).
  vm_compute. reflexivity.
Defined.

(** X6. An interruption discards the model's text only: in any reachable
    state, after a message carrying the interrupted flag the model string is
    empty and the user string is the old one followed by the input text of
    that message. *)
Theorem interruption_keeps_user_text env message w :
  reachable w ->
  interrupted message = true ->
  transcription (fst (onmessage env message w)) =
  {| user := user (transcription w) ++ inputText message; model := [] |}.
Proof.
  intros R Hi. apply reachable_Inv in R.
  pose proof (Inv_beforeInterruption env message R) as [I3 _].
  rewrite onmessage_blocks, (handleInterruption_eq _ _ I3), Hi. cbn [fst].
  unfold flushed. cbn [transcription].
  destruct (beforeInterruption_frame env message w) as (_ & _ & _ & _ & _ & _ & ->).
  reflexivity.
Qed.

Lemma interruption_keeps_user_text_witness :
  reachable sessionPlaying
  /\ transcription (fst (onmessage (reading 1 1) (audioMessage true) sessionPlaying))
     = cleared.
Proof.
  assert (R : reachable sessionPlaying)
    by (exists [StartSession granted; OnOpen;
                OnMessage (reading 0 10) (audioMessage false)];
        vm_compute; reflexivity).
  split; [exact R|].
  rewrite (interruption_keeps_user_text (reading 1 1) (audioMessage true) R eq_refl).
  reflexivity.
Defined.

(** *** Identities *)

Lemma Tidy_initial : Tidy initial.
Proof.
  split; [constructor|]. repeat split; simpl; intros; try discriminate; tauto.
Qed.

Lemma Tidy_grow w w' :
  Tidy w ->
  sourcesRef w' = sourcesRef w \/ sourcesRef w' = [] ->
  (nextObject w <= nextObject w')%nat ->
  (forall c, inputAudioContextRef w' = Some c ->
     inputAudioContextRef w = Some c \/ (c < nextObject w')%nat) ->
  (forall c, outputAudioContextRef w' = Some c ->
     outputAudioContextRef w = Some c \/ (c < nextObject w')%nat) ->
  (forall ts t, mediaStreamRef w' = Some ts -> In t ts ->
     mediaStreamRef w = Some ts \/ (t < nextObject w')%nat) ->
  Tidy w'.
Proof.
  intros (N & F1 & F2 & F3 & F4) Hs Hn Hi Ho Hm. split; [|repeat split].
  - destruct Hs as [->| ->]; [exact N|constructor].
  - intros s H. destruct Hs as [Hs|Hs]; rewrite Hs in H; [|destruct H].
    specialize (F1 s H). lia.
  - intros c H. destruct (Hi c H) as [H'|H']; [|exact H'].
    specialize (F2 c H'). lia.
  - intros c H. destruct (Ho c H) as [H'|H']; [|exact H'].
    specialize (F3 c H'). lia.
  - intros ts t H Ht. destruct (Hm ts t H Ht) as [H'|H']; [|exact H'].
    specialize (F4 ts t H' Ht). lia.
Qed.

Lemma Tidy_cleaned w : Tidy w -> Tidy (cleaned w).
Proof.
  intro T. apply Tidy_grow with (w := w); [exact T| | | | |]; simpl;
    try discriminate; [|lia].
  destruct (outputAudioContextRef w); auto.
Qed.

Ltac tidy_ref :=
  simpl;
  first
    [ reflexivity
    | discriminate
    | lia
    | now left
    | let H := fresh "H" in
      intros ? H; first [now left | injection H as <-; right; lia]
    | let H := fresh "H" in let Ht := fresh "Ht" in
      intros ? ? H Ht; first [now left |
        injection H as <-; apply in_seq in Ht; right; lia] ].

Lemma Tidy_startSession env w : Tidy w -> Tidy (fst (startSession env w)).
Proof.
  intro T.
  assert (M : forall w',
              sourcesRef w' = sourcesRef w ->
              (nextObject w <= nextObject w')%nat ->
              (forall c, inputAudioContextRef w' = Some c ->
                 inputAudioContextRef w = Some c \/ (c < nextObject w')%nat) ->
              (forall c, outputAudioContextRef w' = Some c ->
                 outputAudioContextRef w = Some c \/ (c < nextObject w')%nat) ->
              (forall ts t, mediaStreamRef w' = Some ts -> In t ts ->
                 mediaStreamRef w = Some ts \/ (t < nextObject w')%nat) ->
              Tidy w')
    by (intros w' Hs; apply Tidy_grow; auto).
  clear T.
  destruct w as [c e tr ic oc ms se so ns ti ca no],
           env as [[[]|e1] [[]|e2] [[]|e3] [n|e4|]];
    unfold startSession; live_cbv;
    cbv [newGoogleGenAI newInputAudioContext newOutputAudioContext getUserMedia];
    try (apply M; tidy_ref);
    match goal with
    | |- context [messageOf ?e] => destruct e as [|[m|]]
    end; cbv [messageOf newError fst];
    try (apply M; tidy_ref);
    rewrite cleanup_eq; apply Tidy_cleaned, M; tidy_ref.
Qed.

Lemma NoDup_setAdd x l : NoDup l -> NoDup (setAdd x l).
Proof.
  intro N. unfold setAdd. destruct (existsb (Nat.eqb x) l) eqn:E; [exact N|].
  apply NoDup_app; [exact N | repeat constructor; intros [] |].
  intros a Ha [Hx|[]]. subst a.
  assert (existsb (Nat.eqb x) l = true)
    by (apply existsb_exists; exists x; split; [exact Ha | apply Nat.eqb_refl]).
  congruence.
Qed.

Lemma beforeInterruption_ids env message w :
  let w3 := beforeInterruption env message w in
  (sourcesRef w3 = sourcesRef w /\ nextObject w3 = nextObject w)
  \/ (sourcesRef w3 = setAdd (nextObject w) (sourcesRef w)
      /\ nextObject w3 = S (nextObject w)).
Proof.
  unfold beforeInterruption.
  destruct (handleTranscription_normal message w) as [f ->]. cbn [fst].
  rewrite handleTurnComplete_eq. cbn [fst].
  rewrite handleAudioOutput_eq. cbn [fst].
  destruct (turnComplete message);
    match goal with |- context [playable message ?x] =>
      destruct (playable message x) end;
    try (left; split; reflexivity);
    (destruct (decodeAudioData env) as [d|ex];
     [right; split; reflexivity | left; split; reflexivity]).
Qed.

Lemma Tidy_onmessage env message w :
  Inv w -> Tidy w -> Tidy (fst (onmessage env message w)).
Proof.
  intros I (N & F1 & F2 & F3 & F4).
  pose proof (Inv_beforeInterruption env message I) as [I3 _].
  rewrite onmessage_blocks, (handleInterruption_eq _ _ I3).
  destruct (beforeInterruption_frame env message w)
    as (_ & _ & Hi & Ho & Hm & _ & _).
  assert (T3 : Tidy (beforeInterruption env message w)).
  { destruct (beforeInterruption_ids env message w) as [[Hs Hn]|[Hs Hn]];
      (split; [|repeat split]); rewrite ?Hs, ?Hn, ?Hi, ?Ho, ?Hm.
    - exact N.
    - exact F1.
    - exact F2.
    - exact F3.
    - exact F4.
    - now apply NoDup_setAdd.
    - intros s H. apply In_setAdd in H as [->|H]; [lia|].
      specialize (F1 s H). lia.
    - intros c H. specialize (F2 c H). lia.
    - intros c H. specialize (F3 c H). lia.
    - intros ts t H Ht. specialize (F4 ts t H Ht). lia. }
  destruct (interrupted message); cbn [fst]; [|exact T3].
  apply Tidy_grow with (w := beforeInterruption env message w);
    [exact T3 | now right | reflexivity | now left.. ].
Qed.

Lemma runTimers_fields now w :
  let w' := runTimers now w in
  sourcesRef w' = sourcesRef w
  /\ nextObject w' = nextObject w
  /\ inputAudioContextRef w' = inputAudioContextRef w
  /\ outputAudioContextRef w' = outputAudioContextRef w
  /\ mediaStreamRef w' = mediaStreamRef w
  /\ timers w' = filter (fun t => negb (fst t <=? now)%Z) (timers w).
Proof.
  unfold runTimers.
  set (later := filter (fun t => negb (fst t <=? now)%Z) (timers w)).
  set (w0 := setTimers later w).
  change (sourcesRef w) with (sourcesRef w0).
  change (nextObject w) with (nextObject w0).
  change (inputAudioContextRef w) with (inputAudioContextRef w0).
  change (outputAudioContextRef w) with (outputAudioContextRef w0).
  change (mediaStreamRef w) with (mediaStreamRef w0).
  change later with (timers w0).
  generalize w0. clear w0 later.
  induction (filter _ (timers w)) as [|[due cb] l IH]; intro w0; cbv zeta; simpl.
  - repeat split.
  - destruct (IH (runCallback cb w0)) as (-> & -> & -> & -> & -> & ->).
    destruct cb; repeat split.
Qed.

Lemma Tidy_handle ev w : Inv w -> Tidy w -> Tidy (handle ev w).
Proof.
  intros I T. destruct ev; simpl.
  - now apply Tidy_startSession.
  - exact T.
  - now apply Tidy_onmessage.
  - exact T.
  - exact T.
  - rewrite cleanup_eq. now apply Tidy_cleaned.
  - destruct T as (N & F1 & F2 & F3 & F4). split; [|repeat split]; simpl.
    + now apply NoDup_filter.
    + intros s H. apply In_setDelete in H. now apply F1.
    + exact F2.
    + exact F3.
    + exact F4.
  - destruct (runTimers_fields now w) as (Hs & Hn & Hi & Ho & Hm & _).
    destruct T as (N & F1 & F2 & F3 & F4).
    split; [|repeat split]; rewrite ?Hs, ?Hn, ?Hi, ?Ho, ?Hm; assumption.
Qed.

Lemma reachable_Tidy w : reachable w -> Tidy w.
Proof.
  intros [evs ->].
  assert (G : forall w, Inv w -> Tidy w -> Tidy (run evs w)).
  { induction evs as [|ev evs IH]; intros w I T; simpl; [exact T|].
    apply IH; [now apply Inv_handle | now apply Tidy_handle]. }
  apply G; [apply Inv_initial | apply Tidy_initial].
Qed.

(** X7. In every state the component can reach, no source is tracked twice,
    every tracked source has been started and was created by the component,
    and no source is tracked while the playback context is null. *)
Theorem playback_set_wellformed w :
  reachable w ->
  NoDup (sourcesRef w)
  /\ (forall s, In s (sourcesRef w) ->
       started s (calls w) = true /\ (s < nextObject w)%nat)
  /\ (outputAudioContextRef w = None -> sourcesRef w = []).
Proof.
  intro R. destruct (reachable_Tidy R) as (N & F1 & _).
  destruct (reachable_Inv R) as [I1 I2].
  split; [exact N|]. split; [|exact I2].
  intros s H. split; [now apply I1 | now apply F1].
Qed.

Lemma playback_set_wellformed_witness :
  reachable sessionPlaying
  /\ NoDup (sourcesRef sessionPlaying)
  /\ started 4 (calls sessionPlaying) = true.
Proof.
  assert (R : reachable sessionPlaying)
    by (exists [StartSession granted; OnOpen;
                OnMessage (reading 0 10) (audioMessage false)];
        vm_compute; reflexivity).
  destruct (playback_set_wellformed R) as (N & S & _).
  split; [exact R|]. split; [exact N|].
  apply S. now left.
Defined.

(** *** Latency and restarts *)

(** X8. Nothing holds the producer back: over any sequence of messages
    without the interrupted flag, the cursor ends at least the sum of the
    durations of all buffers scheduled beyond where it started, whatever the
    playback clock showed. *)
Theorem cursor_accumulates msgs w :
  Forall (fun em => interrupted (snd em) = false) msgs ->
  (nextStartTimeRef w + total (map slotDuration (schedule msgs w))
   <= nextStartTimeRef (handleAll msgs w))%Q.
Proof.
  revert w. induction msgs as [|[env message] msgs IH]; intros w H.
  - simpl. lra.
  - inversion H as [|x l Hi Hrest]; subst. simpl in Hi.
    specialize (IH (fst (onmessage env message w)) Hrest).
    cbn [schedule handleAll fold_left fst snd] in *.
    fold (handleAll msgs (fst (onmessage env message w))).
    rewrite schedule_step, map_app.
    set (rest := map slotDuration (schedule msgs (fst (onmessage env message w)))) in *.
    set (final := nextStartTimeRef (handleAll msgs (fst (onmessage env message w)))) in *.
    rewrite onmessage_blocks, (handleInterruption_skip _ _ Hi) in IH.
    cbn [fst] in IH.
    destruct (beforeInterruption_audio env message w) as [_ A].
    pose proof (Q.le_max_l (nextStartTimeRef w) (currentTime env)) as M.
    destruct (audible env message w) as [d|].
    + destruct A as [_ A]. rewrite A in IH. simpl. lra.
    + simpl. destruct A as [_ [A|A]]; rewrite A in IH; lra.
Qed.

Lemma cursor_accumulates_witness :
  (0 + total [10; 1] <= nextStartTimeRef (handleAll (twoPayloads false) sessionOpen))%Q.
Proof.
  apply (@cursor_accumulates (twoPayloads false) sessionOpen).
  repeat constructor.
Defined.

Lemma filter_all {A} (f : A -> bool) l :
  (forall x, In x l -> f x = true) -> filter f l = l.
Proof.
  induction l as [|x l IH]; intro H; simpl; [reflexivity|].
  rewrite (H x) by now left. f_equal. apply IH. intros y Hy. apply H. now right.
Qed.

(** What a granted start stores, and what it leaves alone. *)
Lemma startSession_granted_refs env w n :
  newGoogleGenAI env = Returns tt ->
  newInputAudioContext env = Returns tt ->
  newOutputAudioContext env = Returns tt ->
  getUserMedia env = Fulfilled n ->
  exists w',
    startSession env w = (w', Normal tt)
    /\ inputAudioContextRef w' = Some (nextObject w)
    /\ outputAudioContextRef w' = Some (1 + nextObject w)%nat
    /\ mediaStreamRef w' = Some (seq (2 + nextObject w) n)
    /\ calls w' = calls w
    /\ sourcesRef w' = sourcesRef w.
Proof.
  intros H1 H2 H3 H4.
  destruct w as [c e tr ic oc ms se so ns ti ca no].
  unfold startSession.
  repeat (live_cbv; rewrite ?H1, ?H2, ?H3, ?H4).
  eexists. split; [reflexivity|]. repeat split.
Qed.

(** X9. Starting again without a teardown in between (the Start button is
    shown again after [onerror] or [onclose]) abandons what the refs held:
    in any reachable state holding a stream and two contexts, a granted
    start followed by a teardown stops the new tracks, the sources still
    tracked and the two new contexts, but never the old tracks and never
    the old contexts. *)
Theorem restart_abandons_previous_resources env w n a b ts :
  reachable w ->
  newGoogleGenAI env = Returns tt ->
  newInputAudioContext env = Returns tt ->
  newOutputAudioContext env = Returns tt ->
  getUserMedia env = Fulfilled n ->
  inputAudioContextRef w = Some a ->
  outputAudioContextRef w = Some b ->
  mediaStreamRef w = Some ts ->
  let w2 := fst (cleanup (fst (startSession env w))) in
  let made := skipn (List.length (calls w)) (calls w2) in
  made = map TrackStop (seq (2 + nextObject w) n)
         ++ [ContextClose (nextObject w)]
         ++ map SourceStop (sourcesRef w)
         ++ [ContextClose (1 + nextObject w)%nat]
  /\ ~ In (ContextClose a) made
  /\ ~ In (ContextClose b) made
  /\ (forall t, In t ts -> ~ In (TrackStop t) made).
Proof.
  intros R H1 H2 H3 H4 Ha Hb Hts.
  destruct (reachable_Tidy R) as (_ & _ & F2 & F3 & F4).
  destruct (reachable_Inv R) as [I1 _].
  specialize (F2 a Ha). specialize (F3 b Hb). specialize (F4 ts).
  destruct (@startSession_granted_refs env w n H1 H2 H3 H4)
    as (w' & E & Ei & Eo & Em & Ec & Es).
  cbv zeta. rewrite E. cbn [fst]. rewrite cleanup_eq. cbn [fst].
  unfold cleaned. cbn [calls]. rewrite Ec, skipn_length_app.
  unfold cleanupCalls. rewrite Ei, Eo, Em, Es, Ec, (filter_all _ _ I1).
  split; [reflexivity|].
  assert (D : forall c, In c (map TrackStop (seq (2 + nextObject w) n)
                               ++ [ContextClose (nextObject w)]
                               ++ map SourceStop (sourcesRef w)
                               ++ [ContextClose (1 + nextObject w)%nat]) ->
              (exists t, c = TrackStop t /\ (2 + nextObject w <= t)%nat)
              \/ c = ContextClose (nextObject w)
              \/ (exists s, c = SourceStop s)
              \/ c = ContextClose (1 + nextObject w)%nat).
  { intros c H. apply in_app_or in H as [H|H].
    - apply in_map_iff in H as (t & <- & Ht). apply in_seq in Ht.
      left. exists t. split; [reflexivity|lia].
    - apply in_app_or in H as [[<-|[]]|H]; [auto|].
      apply in_app_or in H as [H|[<-|[]]]; [|auto].
      apply in_map_iff in H as (s & <- & _). right. right. left. now exists s. }
  repeat split.
  - intro H. apply D in H as [(t & H & _)|[H|[(s & H)|H]]];
      try discriminate; injection H as H; lia.
  - intro H. apply D in H as [(t & H & _)|[H|[(s & H)|H]]];
      try discriminate; injection H as H; lia.
  - intros t Ht H. specialize (F4 t Hts Ht).
    apply D in H as [(t' & H & L)|[H|[(s & H)|H]]]; try discriminate.
    injection H as H. lia.
Qed.

Lemma restart_abandons_previous_resources_witness :
  reachable sessionPlaying
  /\ skipn (List.length (calls sessionPlaying))
           (calls (fst (cleanup (fst (startSession granted sessionPlaying)))))
     = [TrackStop 7; ContextClose 5; SourceStop 4; ContextClose 6].
Proof.
  assert (R : reachable sessionPlaying)
    by (exists [StartSession granted; OnOpen;
                OnMessage (reading 0 10) (audioMessage false)];
        vm_compute; reflexivity).
  split; [exact R|].
  destruct (@restart_abandons_previous_resources granted sessionPlaying 1%nat
              0%nat 1%nat [2%nat] R eq_refl eq_refl eq_refl eq_refl
              eq_refl eq_refl eq_refl) as (E & _).
  rewrite E. vm_compute. reflexivity.
Defined.

(** *** Timeouts *)

Lemma beforeInterruption_timers env message w :
  timers (beforeInterruption env message w) =
  timers w ++ (if turnComplete message
               then [((timeMs env + 3000)%Z, ClearTranscription)] else []).
Proof.
  unfold beforeInterruption.
  destruct (handleTranscription_normal message w) as [f ->]. cbn [fst].
  rewrite handleTurnComplete_eq. cbn [fst].
  rewrite handleAudioOutput_eq. cbn [fst].
  destruct (turnComplete message);
    match goal with |- context [playable message ?x] =>
      destruct (playable message x) end;
    try destruct (decodeAudioData env); cbn [timers setTimers scheduled
      setNextStartTimeRef setTranscription]; rewrite ?app_nil_r; reflexivity.
Qed.

Lemma onmessage_timers env message w :
  timers (fst (onmessage env message w)) =
  timers w ++ (if turnComplete message
               then [((timeMs env + 3000)%Z, ClearTranscription)] else []).
Proof.
  rewrite onmessage_blocks, handleInterruption_timers.
  apply beforeInterruption_timers.
Qed.

(** X10. A timeout is never cancelled: once a turn-complete message has been
    handled at page time [t0], both transcript strings are empty at any time
    from [t0 + 3000] on, whatever message was handled in between; text that
    the later message added, and that was in the transcript right after it,
    is cleared with the rest, less than 3000 ms after it arrived. *)
Theorem earlier_timeout_clears_later_text e0 m0 e1 m1 w :
  turnComplete m0 = true ->
  let w1 := fst (onmessage e0 m0 w) in
  let w2 := fst (onmessage e1 m1 w1) in
  (interrupted m1 = false ->
   model (transcription w2) = model (transcription w1) ++ outputText m1)
  /\ (forall now, (timeMs e0 + 3000 <= now)%Z ->
      transcription (runTimers now w2) = cleared).
Proof.
  intro H. cbv zeta. split.
  - intro Hi. now rewrite (@onmessage_transcription e1 m1 _ Hi).
  - intros now L. rewrite transcription_runTimers, !onmessage_timers, H.
    rewrite !filter_app. cbn [filter fst].
    replace (timeMs e0 + 3000 <=? now)%Z with true
      by (symmetry; apply Z.leb_le; exact L).
    destruct (filter _ (timers w)); [reflexivity|reflexivity].
Qed.

Lemma earlier_timeout_clears_later_text_witness :
  let w1 := fst (onmessage (pageTime 0) (textMessage (js "Bon") true) sessionOpen) in
  let w2 := fst (onmessage (pageTime 2900) (textMessage (js "jour") false) w1) in
  model (transcription w2) = js "Bonjour"
  /\ transcription (runTimers 3000 w2) = cleared.
Proof.
  destruct (@earlier_timeout_clears_later_text (pageTime 0) (textMessage (js "Bon") true)
              (pageTime 2900) (textMessage (js "jour") false) sessionOpen eq_refl)
    as (Hm & Hc).
  split.
  - rewrite (Hm eq_refl). vm_compute. reflexivity.
  - apply Hc. vm_compute. discriminate.
Defined.

End LiveConversationMore.

(** ** Substrings *)

Lemma startsWith_spec p s : startsWith p s = true <-> exists b, s = p ++ b.
Proof.
  revert s. induction p as [|a p IH]; intro s; simpl.
  - split; [intros _; now exists s | reflexivity].
  - destruct s as [|c s].
    + split; [discriminate | intros [b H]; discriminate].
    + rewrite andb_true_iff, N.eqb_eq, IH. split.
      * intros [-> [b ->]]. now exists b.
      * intros [b [= -> ->]]. split; [reflexivity | now exists b].
Qed.

Lemma includes_spec s sub :
  includes s sub = true <-> exists a b, s = a ++ sub ++ b.
Proof.
  split.
  - induction s as [|c s IH]; simpl; rewrite orb_true_iff.
    + intros [H|H]; [|discriminate].
      apply startsWith_spec in H as [b H]. now exists [], b.
    + intros [H|H].
      * apply startsWith_spec in H as [b H]. now exists [], b.
      * destruct (IH H) as (a & b & ->). now exists (c :: a), b.
  - intros (a & b & ->). induction a as [|c a IH]; simpl.
    + destruct (sub ++ b) eqn:E; simpl; apply orb_true_iff; left;
        apply startsWith_spec; exists b; now rewrite E.
    + apply orb_true_iff. right. exact IH.
Qed.

(** ** The video panel: outcomes of a generation *)

Section VeoAnimatorMore.

Import VeoAnimator.

Ltac veo_cbv :=
  cbv [bind ret gets modify throw call await tryCatch tryFinally when whenSome
       setFile setPrompt setVideoUrl setIsLoading setStatus setError record
       appendCalls
       file prompt videoUrl isLoading status error calls].

Lemma poll_any reports operation w :
  exists cs c, poll reports operation w = (appendCalls cs w, c).
Proof.
  revert operation w. induction reports as [|r reports IH]; intros operation w;
    simpl; destruct (done operation).
  - exists [], (Normal operation). now rewrite veo_appendCalls_nil.
  - eexists. exists Pending. cbv [bind await]. rewrite !record_eq, veo_appendCalls_app.
    reflexivity.
  - exists [], (Normal operation). now rewrite veo_appendCalls_nil.
  - cbv [bind await]. rewrite !record_eq, veo_appendCalls_app.
    destruct r as [op|e|]; cbv beta iota.
    + destruct (IH op (appendCalls ([Sleep 5000] ++ [GetVideosOperation operation]) w))
        as (cs & c & ->).
      rewrite veo_appendCalls_app. eexists. eexists. reflexivity.
    + eexists. eexists. reflexivity.
    + eexists. eexists. reflexivity.
Qed.

Ltac crack :=
  repeat (veo_cbv; cbv [messageOf newError negb];
    match goal with
    | |- context [poll ?r ?o ?W] =>
        let cs := fresh "cs" in
        destruct (poll_any r o W) as (cs & [[? ? ?]|?|] & ->)
    | |- context [match ?x with Fulfilled _ => _ | Rejected _ => _ | Unsettled => _ end] =>
        destruct x
    | |- context [match ?x with Returns _ => _ | Throws _ => _ end] => destruct x
    | |- context [match ?x with ThrownNullish => _ | ThrownValue _ => _ end] =>
        destruct x
    | |- context [match ?x with Some _ => _ | None => _ end] => destruct x
    | |- context [if ?b then _ else _] => destruct b eqn:?
    end).

(** X11. A generation that settles has one of three outcomes. It succeeds:
    no error, and the video URL is an object URL made from a downloaded
    blob. It fails: the error is set to a non-empty message and the video
    URL is the one shown before. Or a null or undefined value was thrown,
    the catch clause itself throws and the handler rejects, error and video
    URL as before the failure. The loading flag is off in all three. *)
Theorem generate_outcome env w f w' c :
  file w = Some f ->
  handleGenerate env w = (w', c) ->
  c <> Pending ->
  isLoading w' = false
  /\ ((c = Normal tt /\ error w' = None
       /\ exists videoBlob, videoUrl w' = Some (createObjectURL env videoBlob))
      \/ (c = Normal tt /\ videoUrl w' = videoUrl w
          /\ exists message, error w' = Some message /\ truthy message = true)
      \/ (exists e, c = Abrupt e /\ videoUrl w' = videoUrl w /\ error w' = None)).
Proof.
  intros Hf.
  destruct w as [fi pr vu il st er ca]. simpl in Hf. subst fi.
  destruct env as [ak hk ok ai b64 gv reports fe bl url].
  unfold handleGenerate.
  cbv [API_KEY hasSelectedApiKey openSelectKey newGoogleGenAI blobToBase64
       generateVideos getVideosOperation fetch blob createObjectURL].
  crack;
    (let Hc := fresh "Hc" in
     intros [= <- <-] Hc;
     first [now destruct Hc | split; [reflexivity|]];
     first
       [ left; split; [reflexivity|]; split; [reflexivity|];
         eexists; reflexivity
       | right; left; split; [reflexivity|]; split; [reflexivity|];
         eexists; split; [reflexivity|];
         first
           [ reflexivity
           | apply orElse_truthy; reflexivity
           | match goal with
             | |- truthy (if truthy ?x then ?x else _) = true =>
                 let T := fresh "T" in
                 destruct (truthy x) eqn:T; [exact T | reflexivity]
             end ]
       | right; right; eexists; split; [reflexivity|]; split; reflexivity ]).
Qed.

Lemma generate_outcome_witness :
  let env := service [Fulfilled (failedOperation (js "Quota exceeded."))] in
  isLoading (fst (handleGenerate env ready)) = false
  /\ error (fst (handleGenerate env ready)) = Some (js "Quota exceeded.").
Proof.
  intro env.
  destruct (@generate_outcome env ready picture (fst (handleGenerate env ready))
              (snd (handleGenerate env ready)) eq_refl
              (surjective_pairing _)) as [Hl _].
  - vm_compute. discriminate.
  - split; [exact Hl|]. vm_compute. reflexivity.
Defined.

Lemma isRemote_app l l' :
  existsb isRemote (l ++ l') = existsb isRemote l || existsb isRemote l'.
Proof. apply existsb_app. Qed.

(** X12. When a step before the submission fails with a thrown value that
    has a [message] property (the key check, a dismissed key dialog, the
    client constructor or the reading of the image), the panel settles with
    the message the catch clause shows for it, keeps the video shown before,
    and has made no request for a generation, a status or a download. *)
Theorem early_failure_submits_nothing env w f m :
  file w = Some f ->
  failsEarly env (ThrownValue m) ->
  exists w',
    handleGenerate env w = (w', Normal tt)
    /\ error w' = Some (shown m)
    /\ videoUrl w' = videoUrl w
    /\ isLoading w' = false
    /\ status w' = []
    /\ existsb isRemote (skipn (List.length (calls w)) (calls w')) = false.
Proof.
  intros Hf F.
  destruct w as [fi pr vu il st er ca]. simpl in Hf. subst fi.
  unfold handleGenerate, shown.
  destruct F as [H1|[[H1 H2]|[[[H1|[H1 H2]] H3]|[[H1|[H1 H2]] [H3 H4]]]]];
    repeat (veo_cbv; cbv [negb messageOf];
            rewrite ?H1, ?H2, ?H3, ?H4);
    destruct (truthy (orElse m []) &&
              includes (orElse m []) (js "Requested entity was not found"));
    (eexists; split; [reflexivity|]);
    repeat (split; [reflexivity|]);
    cbv [calls]; repeat rewrite <- app_assoc; rewrite skipn_length_app;
    reflexivity.
Qed.

Lemma early_failure_submits_nothing_witness :
  exists w',
    handleGenerate dismissed ready = (w', Normal tt)
    /\ error w' = Some (js "User cancelled")
    /\ calls w' = [HasSelectedApiKey; OpenSelectKey].
Proof.
  destruct (@early_failure_submits_nothing dismissed ready picture
              (Some (js "User cancelled")) eq_refl)
    as (w' & E & He & _).
  - right. left. split; reflexivity.
  - exists w'. split; [exact E|]. split; [exact He|].
    replace w' with (fst (handleGenerate dismissed ready)) by (now rewrite E).
    vm_compute. reflexivity.
Defined.

Lemma poll_unanswered pendings operation w :
  Forall (fun op => done op = false) (operation :: pendings) ->
  poll (map (@Fulfilled _) pendings) operation w =
  (appendCalls (pollCalls (operation :: pendings)) w, Pending).
Proof.
  revert operation w.
  induction pendings as [|p pendings IH]; intros operation w H;
    inversion H as [|x l H0 Hp]; subst.
  - simpl. rewrite H0. cbv [bind await]. rewrite !record_eq, veo_appendCalls_app.
    reflexivity.
  - simpl. rewrite H0. cbv [bind await]. rewrite !record_eq, veo_appendCalls_app.
    rewrite (IH p _ Hp), veo_appendCalls_app. reflexivity.
Qed.

Lemma poll_rejected pendings e rest operation w :
  Forall (fun op => done op = false) (operation :: pendings) ->
  poll (map (@Fulfilled _) pendings ++ Rejected e :: rest) operation w =
  (appendCalls (pollCalls (operation :: pendings)) w, Abrupt e).
Proof.
  revert operation w.
  induction pendings as [|p pendings IH]; intros operation w H;
    inversion H as [|x l H0 Hp]; subst.
  - simpl. rewrite H0. cbv [bind await]. rewrite !record_eq, veo_appendCalls_app.
    reflexivity.
  - simpl. rewrite H0. cbv [bind await]. rewrite !record_eq, veo_appendCalls_app.
    rewrite (IH p _ Hp), veo_appendCalls_app. reflexivity.
Qed.

Ltac submitted Hs :=
  let Hk := fresh "Hk" in let Ho := fresh "Ho" in
  let Hai := fresh "Hai" in let Hb := fresh "Hb" in let Hg := fresh "Hg" in
  destruct Hs as ([Hk|[Hk Ho]] & Hai & Hb & Hg).

(** X13. Nothing bounds the wait: while every status fetch so far has been
    answered with an operation that is not done, however many there were,
    the generation has not settled; the loading flag is on, the status reads
    "Generating video frames...", no error is set, and one more fetch than
    there were answers has been issued. *)
Theorem polling_waits_without_limit env w f base64Data operation pendings :
  file w = Some f ->
  submits env base64Data operation ->
  getVideosOperation env = map (@Fulfilled _) pendings ->
  Forall (fun op => done op = false) (operation :: pendings) ->
  exists w',
    handleGenerate env w = (w', Pending)
    /\ isLoading w' = true
    /\ status w' = js "Generating video frames..."
    /\ error w' = None
    /\ videoUrl w' = videoUrl w
    /\ statusFetches (skipn (List.length (calls w)) (calls w'))
       = S (List.length pendings).
Proof.
  intros Hf Hs Hr Hp.
  destruct w as [fi pr vu il st er ca]. simpl in Hf. subst fi.
  unfold handleGenerate.
  submitted Hs;
    repeat (veo_cbv; cbv [negb];
            rewrite ?Hk, ?Ho, ?Hai, ?Hb, ?Hg, ?Hr, ?(poll_unanswered _ Hp));
    (eexists; split; [reflexivity|]);
    repeat (split; [reflexivity|]);
    cbv [calls]; repeat rewrite <- app_assoc;
    rewrite skipn_length_app, !statusFetches_app, statusFetches_pollCalls;
    reflexivity.
Qed.

Lemma polling_waits_without_limit_witness :
  let env := service [Fulfilled pendingOperation; Fulfilled pendingOperation] in
  exists w',
    handleGenerate env ready = (w', Pending)
    /\ isLoading w' = true
    /\ statusFetches (calls w') = 3%nat.
Proof.
  intro env.
  destruct (@polling_waits_without_limit env ready picture (js "iVBORw0KGgo=")
              pendingOperation [pendingOperation; pendingOperation] eq_refl)
    as (w' & E & Hl & _ & _ & _ & Hn).
  - split; [left; reflexivity|]. repeat split.
  - reflexivity.
  - repeat constructor.
  - exists w'. repeat split; assumption.
Defined.

(** X14. A status fetch that is rejected ends the polling: after any number
    of answers that are not done, a rejection with a [message] settles the
    panel with the message the catch clause shows for it, with exactly one
    fetch more than there were answers; later answers are never asked for. *)
Theorem rejected_fetch_ends_polling env w f base64Data operation pendings m rest :
  file w = Some f ->
  submits env base64Data operation ->
  getVideosOperation env =
    map (@Fulfilled _) pendings ++ Rejected (ThrownValue m) :: rest ->
  Forall (fun op => done op = false) (operation :: pendings) ->
  exists w',
    handleGenerate env w = (w', Normal tt)
    /\ error w' = Some (shown m)
    /\ videoUrl w' = videoUrl w
    /\ isLoading w' = false
    /\ status w' = []
    /\ statusFetches (skipn (List.length (calls w)) (calls w'))
       = S (List.length pendings).
Proof.
  intros Hf Hs Hr Hp.
  destruct w as [fi pr vu il st er ca]. simpl in Hf. subst fi.
  unfold handleGenerate, shown.
  submitted Hs;
    repeat (veo_cbv; cbv [negb messageOf];
            rewrite ?Hk, ?Ho, ?Hai, ?Hb, ?Hg, ?Hr, ?(poll_rejected _ _ _ Hp));
    destruct (truthy (orElse m []) &&
              includes (orElse m []) (js "Requested entity was not found"));
    (eexists; split; [reflexivity|]);
    repeat (split; [reflexivity|]);
    cbv [calls]; repeat rewrite <- app_assoc;
    rewrite skipn_length_app, !statusFetches_app, statusFetches_pollCalls;
    reflexivity.
Qed.

Lemma rejected_fetch_ends_polling_witness :
  let env := service [Fulfilled pendingOperation;
                      Rejected (newError (js "Failed to fetch"));
                      Fulfilled finishedOperation] in
  exists w',
    handleGenerate env ready = (w', Normal tt)
    /\ error w' = Some (js "Failed to fetch")
    /\ statusFetches (calls w') = 2%nat.
Proof.
  intro env.
  destruct (@rejected_fetch_ends_polling env ready picture (js "iVBORw0KGgo=")
              pendingOperation [pendingOperation] (Some (js "Failed to fetch"))
              [Fulfilled finishedOperation] eq_refl)
    as (w' & E & He & _ & _ & _ & Hn).
  - split; [left; reflexivity|]. repeat split.
  - reflexivity.
  - repeat constructor.
  - exists w'. repeat split; assumption.
Defined.

Lemma poll_reaches_calls env operation finished :
  reaches env operation finished ->
  exists ops, forall w,
    poll (getVideosOperation env) operation w =
    (appendCalls (pollCalls ops) w, Normal finished).
Proof.
  intros [[Hd ->]|(pendings & rest & -> & Hp & Hd)].
  - exists []. intro w. rewrite veo_appendCalls_nil. now apply poll_done.
  - eexists. intro w. now apply poll_settles.
Qed.

Lemma pollCalls_no_fetch ops : existsb isFetch (pollCalls ops) = false.
Proof. induction ops as [|op ops IH]; simpl; auto. Qed.

(** X15. A job that ends done, without an error but without a video URI
    (missing or empty), is a failure: the panel settles with the error
    "No video URI returned.", keeps the video shown before and downloads
    nothing. *)
Theorem missing_uri_is_an_error env w f base64Data operation finished :
  file w = Some f ->
  submits env base64Data operation ->
  reaches env operation finished ->
  operationError finished = None ->
  truthy (orElse (uri finished) []) = false ->
  exists w',
    handleGenerate env w = (w', Normal tt)
    /\ error w' = Some (js "No video URI returned.")
    /\ videoUrl w' = videoUrl w
    /\ isLoading w' = false
    /\ status w' = []
    /\ existsb isFetch (skipn (List.length (calls w)) (calls w')) = false.
Proof.
  intros Hf Hs Hr He Hu.
  destruct (poll_reaches_calls Hr) as [ops Hpoll].
  destruct w as [fi pr vu il st er ca]. simpl in Hf. subst fi.
  unfold handleGenerate.
  submitted Hs;
    repeat (veo_cbv; cbv [negb messageOf newError];
            rewrite ?Hk, ?Ho, ?Hai, ?Hb, ?Hg, ?Hpoll, ?He, ?Hu);
    replace (truthy (orElse (Some (js "No video URI returned.")) []) &&
             includes (orElse (Some (js "No video URI returned.")) [])
                      (js "Requested entity was not found"))
      with false by (vm_compute; reflexivity);
    (eexists; split; [reflexivity|]);
    repeat (split; [reflexivity|]);
    cbv [calls]; repeat rewrite <- app_assoc;
    rewrite skipn_length_app, !existsb_app, pollCalls_no_fetch; reflexivity.
Qed.

Lemma missing_uri_is_an_error_witness :
  let env := service [Fulfilled emptyOperation] in
  exists w',
    handleGenerate env ready = (w', Normal tt)
    /\ error w' = Some (js "No video URI returned.")
    /\ videoUrl w' = None.
Proof.
  intro env.
  destruct (@missing_uri_is_an_error env ready picture (js "iVBORw0KGgo=")
              pendingOperation emptyOperation eq_refl)
    as (w' & E & He & Hv & _).
  - split; [left; reflexivity|]. repeat split.
  - right. exists [], []. repeat split; repeat constructor.
  - reflexivity.
  - reflexivity.
  - exists w'. repeat split; assumption.
Defined.

(** The error shown when the key check is rejected. *)
Lemma key_check_rejected env w f m :
  file w = Some f ->
  hasSelectedApiKey env = Rejected (ThrownValue m) ->
  error (fst (handleGenerate env w)) = Some (shown m).
Proof.
  intros Hf H1.
  destruct w as [fi pr vu il st er ca]. simpl in Hf. subst fi.
  unfold handleGenerate, shown.
  repeat (veo_cbv; cbv [negb messageOf]; rewrite ?H1).
  now destruct (truthy (orElse m []) &&
                includes (orElse m []) (js "Requested entity was not found")).
Qed.

(** X16. A thrown message reaches the user unchanged exactly when it does
    not contain "Requested entity was not found": for a key check rejected
    with a non-empty message, the error shown equals that message if and
    only if the message cannot be split as a prefix, that phrase and a
    suffix. *)
Theorem thrown_message_verbatim_iff env w f message :
  file w = Some f ->
  hasSelectedApiKey env = Rejected (newError message) ->
  truthy message = true ->
  error (fst (handleGenerate env w)) = Some message
  <-> ~ exists a b, message = a ++ js "Requested entity was not found" ++ b.
Proof.
  intros Hf Hk Ht.
  rewrite (@key_check_rejected env w f (Some message) Hf Hk).
  unfold shown, orElse. rewrite !Ht. cbn [andb].
  rewrite <- includes_spec.
  destruct (includes message (js "Requested entity was not found")) eqn:Ei.
  - split; [|intro H; now destruct H].
    intros [= H]. subst message. vm_compute in Ei. discriminate.
  - split; [intros _; discriminate | reflexivity].
Qed.

Lemma thrown_message_verbatim_iff_witness :
  error (fst (handleGenerate keyless ready)) = Some (js "No key").
Proof.
  apply (@thrown_message_verbatim_iff keyless ready picture (js "No key")
           eq_refl eq_refl eq_refl).
  rewrite <- includes_spec. vm_compute. discriminate.
Defined.

End VeoAnimatorMore.

(** ** The image panel: outcomes of an edit *)

Section ImageEditorMore.

Import ImageEditor.

Ltac img_cbv :=
  cbv [bind ret gets modify throw call await tryCatch tryFinally when whenSome
       setFile setPrompt setResultImage setLoading record
       file prompt resultImage loading calls].

Lemma find_first {A} (p : A -> bool) pre x post :
  existsb p pre = false -> p x = true -> find p (pre ++ x :: post) = Some x.
Proof.
  induction pre as [|y pre IH]; simpl; intros H Hx.
  - now rewrite Hx.
  - apply orb_false_iff in H as [-> H]. now apply IH.
Qed.

(** X17. The first inline image of the answer is the result: when the parts
    of the response are some parts without inline data, then a part with
    inline data, then any parts at all, the edit completes normally with the
    result image set to the PNG data URL of that first inline payload, the
    loading flag off and no other call than the upload and the request; later
    images are ignored. *)
Theorem first_inline_image_wins env w f base64Data pre image txt post :
  file w = Some f ->
  truthy (prompt w) = true ->
  newGoogleGenAI env = Returns tt ->
  blobToBase64 env = Fulfilled base64Data ->
  generateContent env =
    Fulfilled {| parts := Some (pre ++ {| inlineData := Some image; text := txt |}
                                      :: post) |} ->
  existsb hasInlineData pre = false ->
  exists w',
    handleEdit env w = (w', Normal tt)
    /\ resultImage w' = Some (js "data:image/png;base64," ++ interpolate (data image))
    /\ loading w' = false
    /\ calls w' =
       calls w ++ [BlobToBase64 f; GenerateContent base64Data (type f) (prompt w)].
Proof.
  intros Hf Hp Hai Hb Hg Hpre.
  destruct w as [fi pr ri lo ca]. simpl in Hf, Hp. subst fi.
  unfold handleEdit. img_cbv. rewrite Hp, Hai, Hb, Hg. cbv [parts].
  rewrite find_first; [|assumption|reflexivity].
  rewrite existsb_app, Hpre. cbn [existsb hasInlineData inlineData orb negb].
  rewrite andb_false_r.
  eexists. split; [reflexivity|]. repeat split.
  cbv [calls]. now rewrite <- app_assoc.
Qed.

Lemma first_inline_image_wins_witness :
  exists w',
    handleEdit twoImages ready = (w', Normal tt)
    /\ resultImage w' = Some (js "data:image/png;base64,AAA")
    /\ loading w' = false.
Proof.
  destruct (@first_inline_image_wins twoImages ready picture (js "iVBORw0KGgo=")
              [{| inlineData := None; text := Some (js "Here you are") |}]
              {| data := Some (js "AAA") |} None
              [{| inlineData := Some {| data := Some (js "BBB") |}; text := None |}])
    as (w' & E & Hr & Hl & _); try reflexivity.
  exists w'. repeat split; assumption.
Defined.

(** X18. Whatever is thrown while editing, even null, the edit completes
    normally: the handler logs the error, raises the one alert
    "Failed to edit image", leaves the result image null (the image shown
    before is gone) and turns the loading flag off. *)
Theorem edit_failure_alerts env w f e :
  file w = Some f ->
  truthy (prompt w) = true ->
  failsWith env e ->
  exists w' made,
    handleEdit env w = (w', Normal tt)
    /\ resultImage w' = None
    /\ loading w' = false
    /\ calls w' = calls w ++ made ++ [ConsoleError; Alert (js "Failed to edit image")]
    /\ existsb isAlert made = false.
Proof.
  intros Hf Hp F.
  destruct w as [fi pr ri lo ca]. simpl in Hf, Hp. subst fi.
  unfold handleEdit.
  destruct F as [H1|[[H1 H2]|(H1 & [b H2] & H3)]];
    repeat (img_cbv; rewrite ?Hp, ?H1, ?H2, ?H3).
  - eexists. exists []. split; [reflexivity|]. repeat split.
    cbv [calls]. now rewrite <- !app_assoc.
  - eexists. exists [BlobToBase64 f]. split; [reflexivity|]. repeat split.
    cbv [calls]. now rewrite <- !app_assoc.
  - eexists. exists [BlobToBase64 f; GenerateContent b (type f) pr].
    split; [reflexivity|]. repeat split.
    cbv [calls]. now rewrite <- !app_assoc.
Qed.

Lemma edit_failure_alerts_witness :
  exists w',
    handleEdit refused ready = (w', Normal tt)
    /\ resultImage w' = None
    /\ loading w' = false.
Proof.
  destruct (@edit_failure_alerts refused ready picture ThrownNullish
              eq_refl eq_refl) as (w' & made & E & Hr & Hl & _).
  - right. right. split; [reflexivity|]. split; [|reflexivity].
    now exists (js "iVBORw0KGgo=").
  - exists w'. repeat split; assumption.
Defined.

(** X19. An edit never rejects and never keeps an old result: whatever the
    service does, an edit that passes the guard and settles completes
    normally with the loading flag off, and the result image is either null
    or a PNG data URL built from the response. *)
Theorem edit_outcome env w f w' c :
  file w = Some f ->
  truthy (prompt w) = true ->
  handleEdit env w = (w', c) ->
  c <> Pending ->
  c = Normal tt
  /\ loading w' = false
  /\ (resultImage w' = None
      \/ exists payload,
           resultImage w' = Some (js "data:image/png;base64," ++ payload)).
Proof.
  intros Hf Hp.
  destruct w as [fi pr ri lo ca]. simpl in Hf, Hp. subst fi.
  destruct env as [[[]|e1] [b|e2|] [[[ps|]]|e3|]];
    unfold handleEdit; img_cbv;
    cbv [newGoogleGenAI blobToBase64 generateContent parts]; rewrite Hp;
    try destruct (find hasInlineData ps) as [[[img|] t]|];
    repeat match goal with
           | |- context [if ?b then _ else _] => destruct b
           end;
    cbv beta iota;
    intros [= <- <-] Hc;
    first [now destruct Hc
          | repeat split; first [now left | right; eexists; reflexivity]].
Qed.

Lemma edit_outcome_witness :
  snd (handleEdit refused ready) = Normal tt
  /\ loading (fst (handleEdit refused ready)) = false.
Proof.
  destruct (@edit_outcome refused ready picture (fst (handleEdit refused ready))
              (snd (handleEdit refused ready)) eq_refl eq_refl
              (surjective_pairing _)) as (Hc & Hl & _).
  - vm_compute. discriminate.
  - split; assumption.
Defined.

End ImageEditorMore.

(** ** Trimming *)

Lemma existsb_rev_eq {A} (p : A -> bool) l : existsb p (rev l) = existsb p l.
Proof.
  induction l as [|a l IH]; [reflexivity|].
  simpl. rewrite existsb_app, IH. simpl. rewrite orb_false_r. apply orb_comm.
Qed.

Lemma trimStart_keeps_text s :
  existsb (fun c => negb (isWhiteSpace c)) (trimStart s)
  = existsb (fun c => negb (isWhiteSpace c)) s.
Proof.
  induction s as [|c s IH]; [reflexivity|].
  simpl. destruct (isWhiteSpace c) eqn:E; [exact IH|].
  simpl. now rewrite E.
Qed.

Lemma trimStart_text s :
  existsb (fun c => negb (isWhiteSpace c)) s = true -> truthy (trimStart s) = true.
Proof.
  induction s as [|c s IH]; [discriminate|].
  simpl. destruct (isWhiteSpace c); [exact IH | reflexivity].
Qed.

Lemma truthy_rev s : truthy (rev s) = truthy s.
Proof.
  destruct s as [|c s]; [reflexivity|].
  simpl. now destruct (rev s).
Qed.

(** [s.trim()] is empty exactly when every code unit of [s] is white space. *)
Lemma truthy_trim s :
  truthy (trim s) = existsb (fun c => negb (isWhiteSpace c)) s.
Proof.
  destruct (existsb (fun c => negb (isWhiteSpace c)) s) eqn:E.
  - unfold trim, trimEnd. rewrite truthy_rev. apply trimStart_text.
    now rewrite existsb_rev_eq, trimStart_keeps_text.
  - rewrite trim_whitespace; [reflexivity|].
    apply forallb_forall. intros c Hc.
    destruct (isWhiteSpace c) eqn:W; [reflexivity|].
    assert (existsb (fun c => negb (isWhiteSpace c)) s = true) as X
      by (apply existsb_exists; exists c; now rewrite W).
    congruence.
Qed.

(** ** The search panel *)

Section SearchQueryMore.

Import SearchQuery.

Ltac search_cbv :=
  cbv [bind ret gets modify throw call await tryCatch tryFinally when whenSome
       setQuery setResponse setGroundingChunks setLoading record messageOf newError
       query response groundingChunks loading calls].

(** X20. A search whose query has a code unit that is not white space and
    whose request is answered completes normally: the request carries the
    query as typed, not trimmed; the response is the answer's text, or
    "No response generated." when the text is missing or empty; the citations
    are the answer's grounding chunks, or none when they are missing; the
    loading flag is off. *)
Theorem search_answer env w result :
  hasText (query w) = true ->
  newGoogleGenAI env = Returns tt ->
  generateContent env = Fulfilled result ->
  exists w',
    handleSearch env w = (w', Normal tt)
    /\ response w' = orElse (text result) (js "No response generated.")
    /\ groundingChunks w' = match chunks result with Some l => l | None => [] end
    /\ loading w' = false
    /\ query w' = query w
    /\ calls w' = calls w ++ [PreventDefault; GenerateContent (query w)].
Proof.
  intros Hq Hai Hg. unfold hasText in Hq. rewrite <- truthy_trim in Hq.
  destruct w as [q r g l ca]. cbv [query] in Hq.
  unfold handleSearch. search_cbv. rewrite Hq, Hai, Hg.
  eexists. split; [reflexivity|]. repeat split.
  cbv [calls]. now rewrite <- app_assoc.
Qed.

Lemma search_answer_witness :
  exists w',
    handleSearch mute asked = (w', Normal tt)
    /\ response w' = js "No response generated."
    /\ groundingChunks w' = []
    /\ calls w' = [PreventDefault; GenerateContent (js " argot ")].
Proof.
  destruct (@search_answer mute asked {| text := None; chunks := None |}
              eq_refl eq_refl eq_refl) as (w' & E & Hr & Hg & _ & _ & Hc).
  exists w'. repeat split; assumption.
Defined.

(** X21. A search that fails with a thrown value completes normally and
    shows the failure as the response: "Error: " followed by the value's
    message, or by "undefined" when it has none; the citations are empty and
    the loading flag is off. *)
Theorem search_failure_shown env w message :
  hasText (query w) = true ->
  newGoogleGenAI env = Throws (ThrownValue message)
  \/ (newGoogleGenAI env = Returns tt
      /\ generateContent env = Rejected (ThrownValue message)) ->
  exists w',
    handleSearch env w = (w', Normal tt)
    /\ response w' = js "Error: " ++ interpolate message
    /\ groundingChunks w' = []
    /\ loading w' = false.
Proof.
  intros Hq F. unfold hasText in Hq. rewrite <- truthy_trim in Hq.
  destruct w as [q r g l ca]. cbv [query] in Hq.
  unfold handleSearch.
  destruct F as [H1|[H1 H2]]; search_cbv; rewrite Hq, H1, ?H2;
    (eexists; split; [reflexivity|]; repeat split).
Qed.

Lemma search_failure_shown_witness :
  exists w',
    handleSearch offline asked = (w', Normal tt)
    /\ response w' = js "Error: Failed to fetch"
    /\ loading w' = false.
Proof.
  destruct (@search_failure_shown offline asked (Some (js "Failed to fetch")) eq_refl)
    as (w' & E & Hr & _ & Hl).
  - right. split; reflexivity.
  - exists w'. repeat split; assumption.
Defined.

(** X22. The guard is exact: with a client that can be built, a submission
    issues a request exactly when the query has a code unit that is not white
    space; the default action of the form is prevented either way. *)
Theorem search_request_iff_text env w :
  newGoogleGenAI env = Returns tt ->
  exists made,
    calls (fst (handleSearch env w)) = calls w ++ PreventDefault :: made
    /\ existsb isRemote made = hasText (query w).
Proof.
  intros Hai. unfold hasText. rewrite <- truthy_trim.
  destruct w as [q r g l ca]. unfold handleSearch. search_cbv. rewrite Hai.
  destruct (truthy (trim q)).
  - exists [GenerateContent q]. split; [|reflexivity].
    destruct (generateContent env) as [res|[|m]|]; cbv [fst calls];
      now rewrite <- app_assoc.
  - exists []. split; reflexivity.
Qed.

Lemma search_request_iff_text_witness :
  exists made,
    calls (fst (handleSearch offline asked)) = PreventDefault :: made
    /\ existsb isRemote made = true.
Proof.
  destruct (@search_request_iff_text offline asked eq_refl) as (made & Hc & Hm).
  exists made. split; assumption.
Defined.

(** X23. A search rejects only on a null or undefined failure: when it
    passes the guard and settles, the loading flag is off, and either it
    completed normally or the value thrown was null or undefined, in which
    case reading its message in the catch clause throws, the handler rejects
    and the response stays empty. *)
Theorem search_outcome env w w' c :
  hasText (query w) = true ->
  handleSearch env w = (w', c) ->
  c <> Pending ->
  loading w' = false
  /\ (c = Normal tt
      \/ ((newGoogleGenAI env = Throws ThrownNullish
           \/ generateContent env = Rejected ThrownNullish)
          /\ (exists typeError, c = Abrupt typeError)
          /\ response w' = [])).
Proof.
  intros Hq. unfold hasText in Hq. rewrite <- truthy_trim in Hq.
  destruct w as [q r g l ca]. cbv [query] in Hq.
  unfold handleSearch.
  destruct env as [[[]|[|m1]] [res|[|m2]|]];
    search_cbv; cbv [newGoogleGenAI generateContent]; rewrite Hq;
    intros [= <- <-] Hc;
    first [now destruct Hc
          | split; [reflexivity|];
            first [now left
                  | right; split; [first [now left | now right]|];
                    split; [eexists; reflexivity | reflexivity]]].
Qed.

Lemma search_outcome_witness :
  loading (fst (handleSearch offline asked)) = false.
Proof.
  destruct (@search_outcome offline asked (fst (handleSearch offline asked))
              (snd (handleSearch offline asked)) eq_refl (surjective_pairing _))
    as (Hl & _).
  - vm_compute. discriminate.
  - exact Hl.
Defined.

End SearchQueryMore.

(** ** The application shell *)

Section AppFacts.

Import App.

Lemma run_snoc clicks i : run (clicks ++ [i]) = click i (run clicks).
Proof. unfold run. now rewrite fold_left_app. Qed.

(** The mode is always the string of a member of [AppMode]. *)
Lemma run_member clicks : exists m, run clicks = value m.
Proof.
  induction clicks as [|i clicks IH] using rev_ind.
  - now exists LIVE_CONVERSATION.
  - rewrite run_snoc. destruct IH as [m ->].
    destruct i as [|[|[|[|i]]]].
    + now exists LIVE_CONVERSATION.
    + now exists SCENARIO_BUILDER.
    + now exists VEO_ANIMATOR.
    + now exists CULTURAL_SEARCH.
    + exists m. unfold click.
      replace (nth_error (Navigation (value m)) (S (S (S (S i))))) with (@None Button);
        [reflexivity|].
      symmetry. apply nth_error_None. unfold Navigation. rewrite length_map.
      simpl. lia.
Qed.

(** X24. After any sequence of clicks the side bar highlights exactly one
    button, and that button is the one whose click shows the panel now on
    screen; the mode is the string of a member of [AppMode], so the default
    branch of [renderContent] is never needed. *)
Theorem one_button_highlighted clicks :
  (exists m, run clicks = value m)
  /\ exists before button after,
       Navigation (run clicks) = before ++ button :: after
       /\ highlighted button = true
       /\ forallb (fun b => negb (highlighted b)) (before ++ after) = true
       /\ renderContent (onClick button) = renderContent (run clicks).
Proof.
  split; [apply run_member|].
  destruct (run_member clicks) as [m ->].
  destruct m.
  - exists [], (nth 0 (Navigation (value LIVE_CONVERSATION))
                    {| onClick := []; highlighted := false; caption := [] |}).
    eexists. vm_compute. repeat split.
  - exists (firstn 2 (Navigation (value VEO_ANIMATOR))),
           (nth 2 (Navigation (value VEO_ANIMATOR))
                {| onClick := []; highlighted := false; caption := [] |}).
    eexists. vm_compute. repeat split.
  - exists (firstn 1 (Navigation (value SCENARIO_BUILDER))),
           (nth 1 (Navigation (value SCENARIO_BUILDER))
                {| onClick := []; highlighted := false; caption := [] |}).
    eexists. vm_compute. repeat split.
  - exists (firstn 3 (Navigation (value CULTURAL_SEARCH))),
           (nth 3 (Navigation (value CULTURAL_SEARCH))
                {| onClick := []; highlighted := false; caption := [] |}).
    exists []. vm_compute. repeat split.
Qed.

(** X25. Every panel is one click away: whatever was clicked before, for
    each of the four panels the side bar has a button whose click shows it,
    and a click shows the same panel whatever the mode was. *)
Theorem every_panel_one_click_away clicks panel :
  exists i,
    renderContent (run (clicks ++ [i])) = panel
    /\ forall mode, renderContent (click i mode) = panel.
Proof.
  exists (match panel with
          | LiveConversationPanel => 0
          | ImageEditorPanel => 1
          | VeoAnimatorPanel => 2
          | SearchQueryPanel => 3
          end%nat).
  rewrite run_snoc. destruct panel; split; try intros mode; reflexivity.
Qed.

End AppFacts.

(** ** The spectrum display *)

Section AudioVisualizerFacts.

Import AudioVisualizer.

Lemma bars_nth cv barWidth dataArray : forall x0 i d,
  nth_error dataArray i = Some d ->
  exists b,
    nth_error (bars cv barWidth x0 dataArray) i = Some b
    /\ (x b == x0 + inject_Z (Z.of_nat i) * (barWidth + 1))%Q
    /\ y b = (height cv - inject_Z d / 2)%Q
    /\ w b = barWidth
    /\ h b = (inject_Z d / 2)%Q
    /\ globalAlpha b = Qmin 1 (inject_Z d / 2 / 100 + (2 # 10))%Q.
Proof.
  induction dataArray as [|d0 rest IH]; intros x0 [|i] d H; try discriminate.
  - injection H as <-. eexists. split; [reflexivity|]. repeat split.
    cbn [x]. change (inject_Z (Z.of_nat 0)) with 0%Q. ring.
  - destruct (IH (x0 + (barWidth + 1))%Q i d H) as (b & Hb & Hx & Hrest).
    exists b. split; [exact Hb|]. split; [|exact Hrest].
    rewrite Hx, Nat2Z.inj_succ. unfold Z.succ. rewrite inject_Z_plus.
    change (inject_Z 1) with 1%Q. ring.
Qed.

Lemma bars_length cv barWidth dataArray : forall x0,
  List.length (bars cv barWidth x0 dataArray) = List.length dataArray.
Proof.
  induction dataArray as [|d rest IH]; intro x0; [reflexivity|].
  simpl. now rewrite IH.
Qed.

Lemma drawn_fill l : drawn (map Fill l) = l.
Proof. induction l as [|b l IH]; [reflexivity|]. simpl. now f_equal. Qed.

Lemma drawn_draw cv dataArray :
  drawn (draw true cv dataArray)
  = bars cv (width cv / inject_Z (Z.of_nat (List.length dataArray)) * (25 # 10))%Q
         0 dataArray.
Proof. unfold draw. cbn [negb]. unfold drawn at 1. cbn [flat_map app]. apply drawn_fill. Qed.

(** X26. A frame draws one bar for each frequency bin, left to right: the
    bar of bin [i] starts at [i] strides of the bar width plus one pixel,
    where the bar width is two and a half times the canvas width divided by
    the number of bins; it stands on the bottom edge of the canvas and is
    half the bin's byte high. *)
Theorem frame_layout cv dataArray i d :
  nth_error dataArray i = Some d ->
  List.length (drawn (draw true cv dataArray)) = List.length dataArray
  /\ exists b,
       nth_error (drawn (draw true cv dataArray)) i = Some b
       /\ (x b == inject_Z (Z.of_nat i)
                  * (width cv / inject_Z (Z.of_nat (List.length dataArray))
                     * (25 # 10) + 1))%Q
       /\ (y b + h b == height cv)%Q
       /\ (h b == inject_Z d / 2)%Q.
Proof.
  intro H. rewrite drawn_draw. split; [apply bars_length|].
  destruct (@bars_nth cv (width cv / inject_Z (Z.of_nat (List.length dataArray)) * (25 # 10))%Q
              dataArray 0%Q i d H) as (b & Hb & Hx & Hy & _ & Hh & _).
  exists b. split; [exact Hb|]. split; [|split].
  - rewrite Hx. ring.
  - rewrite Hy, Hh. ring.
  - now rewrite Hh.
Qed.

Lemma frame_layout_witness :
  exists b,
    nth_error (drawn (draw true canvas silence)) 2 = Some b
    /\ (y b + h b == 100)%Q.
Proof.
  destruct (@frame_layout canvas silence 2 0%Z eq_refl) as (_ & b & Hb & _ & Hy & _).
  exists b. split; assumption.
Defined.

(** X27. On the 300 by 100 canvas a bar reaches above the top edge exactly
    when its byte exceeds 200; its opacity lies between 0.2 and 1 and is 1
    exactly from byte 160 on. *)
Theorem bar_height_and_opacity dataArray i d b :
  isByte d ->
  nth_error dataArray i = Some d ->
  nth_error (drawn (draw true canvas dataArray)) i = Some b ->
  ((y b < 0)%Q <-> (200 < d)%Z)
  /\ ((2 # 10) <= globalAlpha b <= 1)%Q
  /\ ((globalAlpha b == 1)%Q <-> (160 <= d)%Z).
Proof.
  intros [Hd0 Hd1] H Hb. rewrite drawn_draw in Hb.
  destruct (@bars_nth canvas
              (width canvas / inject_Z (Z.of_nat (List.length dataArray)) * (25 # 10))%Q
              dataArray 0%Q i d H) as (b' & Hb' & _ & Hy & _ & _ & Ha).
  rewrite Hb in Hb'. injection Hb' as <-. rewrite Hy, Ha. cbn [height canvas].
  assert (0 <= inject_Z d)%Q as Q0 by (change 0%Q with (inject_Z 0); now rewrite <- Zle_Qle).
  assert (inject_Z d / 2 == inject_Z d * (1 # 2))%Q as E1 by field.
  assert (inject_Z d / 2 / 100 == inject_Z d * (1 # 200))%Q as E2 by field.
  destruct (Q.min_spec 1 (inject_Z d / 2 / 100 + (2 # 10))) as [[Hlt Hm]|[Hle Hm]].
  - split; [|split].
    + split; intro X.
      * rewrite Zlt_Qlt. change (inject_Z 200) with 200%Q. lra.
      * rewrite Zlt_Qlt in X. change (inject_Z 200) with 200%Q in X. lra.
    + rewrite Hm. lra.
    + split; intro X.
      * rewrite Zle_Qle. change (inject_Z 160) with 160%Q. lra.
      * exact Hm.
  - split; [|split].
    + split; intro X.
      * rewrite Zlt_Qlt. change (inject_Z 200) with 200%Q. lra.
      * rewrite Zlt_Qlt in X. change (inject_Z 200) with 200%Q in X. lra.
    + rewrite Hm. lra.
    + split; intro X.
      * rewrite Zle_Qle. change (inject_Z 160) with 160%Q. rewrite Hm in X. lra.
      * rewrite Zle_Qle in X. change (inject_Z 160) with 160%Q in X. rewrite Hm. lra.
Qed.

Lemma bar_height_and_opacity_witness :
  exists b,
    nth_error (drawn (draw true canvas [255%Z])) 0 = Some b
    /\ (y b < 0)%Q
    /\ (globalAlpha b == 1)%Q.
Proof.
  eexists. split; [reflexivity|].
  destruct (@bar_height_and_opacity [255%Z] 0 255%Z _ ltac:(unfold isByte; lia)
              eq_refl eq_refl) as (Hy & _ & Ha).
  split; [apply Hy | apply Ha]; lia.
Defined.

(** X28. On the 300 pixel wide canvas the bar of bin [i] of [n] starts left
    of the right edge exactly when [i * (750 + n) < 300 * n]: the bars are
    laid out over more than the canvas, and the higher bins fall outside
    it. *)
Theorem bar_inside_canvas dataArray i d b :
  nth_error dataArray i = Some d ->
  nth_error (drawn (draw true canvas dataArray)) i = Some b ->
  (x b < width canvas)%Q
  <-> (Z.of_nat i * (750 + Z.of_nat (List.length dataArray))
       < 300 * Z.of_nat (List.length dataArray))%Z.
Proof.
  intros H Hb. rewrite drawn_draw in Hb.
  destruct (@bars_nth canvas
              (width canvas / inject_Z (Z.of_nat (List.length dataArray)) * (25 # 10))%Q
              dataArray 0%Q i d H) as (b' & Hb' & Hx & _).
  rewrite Hb in Hb'. injection Hb' as <-. rewrite Hx. cbn [width canvas].
  assert (i < List.length dataArray)%nat as Hi
    by (apply nth_error_Some; congruence).
  set (n := Z.of_nat (List.length dataArray)) in *.
  assert (0 < n)%Z as Hn by (subst n; lia).
  assert (0 < inject_Z n)%Q as Qn
    by (change 0%Q with (inject_Z 0); now rewrite <- Zlt_Qlt).
  assert (0 + inject_Z (Z.of_nat i) * (300 / inject_Z n * (25 # 10) + 1)
          == inject_Z (Z.of_nat i * (750 + n)) / inject_Z n)%Q as E.
  { rewrite inject_Z_mult, inject_Z_plus. change (inject_Z 750) with 750%Q.
    field. lra. }
  rewrite E. split; intro X.
  - rewrite Zlt_Qlt. rewrite (inject_Z_mult 300 n). change (inject_Z 300) with 300%Q.
    apply (Qmult_lt_r _ _ (inject_Z n) Qn) in X.
    assert (inject_Z (Z.of_nat i * (750 + n)) / inject_Z n * inject_Z n
            == inject_Z (Z.of_nat i * (750 + n)))%Q as E3 by (field; lra).
    now rewrite E3 in X.
  - apply Qlt_shift_div_r; [exact Qn|].
    rewrite Zlt_Qlt in X. rewrite (inject_Z_mult 300 n) in X.
    exact X.
Qed.

Lemma bar_inside_canvas_witness :
  exists b,
    nth_error (drawn (draw true canvas silence)) 44 = Some b
    /\ ~ (x b < 300)%Q.
Proof.
  eexists. split; [reflexivity|].
  intro X.
  apply (@bar_inside_canvas silence 44 0%Z _ eq_refl eq_refl) in X.
  vm_compute in X. discriminate.
Defined.

End AudioVisualizerFacts.
